(** * Sentiview: input normalisation, the two analysis providers and the
      request controller of the dashboard.

    The development follows the TypeScript sources:
    - [services/apiService.ts]    (HTTP backend provider, [extractVideoId]),
    - the Gemini service         (generative provider, [@google/genai]),
    - [types.ts]                  ([SentimentData], [AnalysisStatus]),
    - [App.tsx]                   (the controller, [handleSubmit]).

    JavaScript strings are sequences of UTF-16 code units; the regular
    expressions of the sources are run by a backtracking matcher that follows
    the priorities of ECMAScript (alternatives left to right, greedy and lazy
    quantifiers, first start index that matches). *)

From Stdlib Require Import NArith Bool Ascii String DecimalString List Lia QArith PeanoNat.
Import ListNotations.

Set Implicit Arguments.
Close Scope Q_scope.
Local Open Scope N_scope.

(* ------------------------------------------------------------------ *)
(** ** JavaScript strings *)

Module JS.

(** A string is the list of its UTF-16 code units. *)
Definition code_unit := N.
Definition jsstring := list code_unit.

Definition unit_of_ascii (a : ascii) : code_unit := N_of_ascii a.

Fixpoint js (s : string) : jsstring :=
  match s with
  | EmptyString => []
  | String a s' => unit_of_ascii a :: js s'
  end.

Definition in_range (lo hi c : code_unit) : bool :=
  (N.leb lo c) && (N.leb c hi).

(** WhiteSpace and LineTerminator of ECMAScript: what [String.prototype.trim]
    strips and what [\s] matches. *)
Definition is_white_space (c : code_unit) : bool :=
  in_range 9 13 c            (* TAB, LF, VT, FF, CR *)
  || N.eqb c 32              (* SPACE *)
  || N.eqb c 160             (* NO-BREAK SPACE *)
  || N.eqb c 5760            (* U+1680 *)
  || in_range 8192 8202 c    (* U+2000 .. U+200A *)
  || N.eqb c 8232            (* U+2028 *)
  || N.eqb c 8233            (* U+2029 *)
  || N.eqb c 8239            (* U+202F *)
  || N.eqb c 8287            (* U+205F *)
  || N.eqb c 12288           (* U+3000 *)
  || N.eqb c 65279.          (* U+FEFF *)

Fixpoint trimStart (s : jsstring) : jsstring :=
  match s with
  | [] => []
  | c :: s' => if is_white_space c then trimStart s' else s
  end.

Definition trimEnd (s : jsstring) : jsstring := rev (trimStart (rev s)).

(** [s.trim()] *)
Definition trim (s : jsstring) : jsstring := trimEnd (trimStart s).

(** Truthiness of a string: the empty string is the only falsy one. *)
Definition truthy (s : jsstring) : bool :=
  match s with [] => false | _ :: _ => true end.

End JS.
Import JS.

(* ------------------------------------------------------------------ *)
(** ** Regular expressions and [String.prototype.match] *)

Module RegExp.

(** The constructs the two patterns of the sources use.  [Group] is the one
    capturing group, [( ... )]; [(?: ... )] groups only shape the tree. *)
Inductive regex : Type :=
| Eps
| Chr (c : code_unit)                 (* a literal or escaped character  *)
| Cls (p : code_unit -> bool)         (* [...], [^...], \S                *)
| Seq (r1 r2 : regex)
| Alt (r1 r2 : regex)                 (* r1|r2, r1 tried first           *)
| Opt (r : regex)                     (* r?   greedy                     *)
| Star (greedy : bool) (r : regex)    (* r*  and  r*?                    *)
| Rep (n : nat) (r : regex)           (* r{n}                            *)
| Group (r : regex).                  (* ( r ), capture number 1         *)

(** [r+] is one iteration followed by [r*]. *)
Definition Plus (r : regex) : regex := Seq r (Star true r).

Fixpoint Lit (s : jsstring) : regex :=
  match s with
  | [] => Eps
  | c :: s' => Seq (Chr c) (Lit s')
  end.

(** The state of capture 1: [None] is [undefined]. *)
Definition capture := option jsstring.

(** A continuation receives the rest of the input and the captures. *)
Definition cont := jsstring -> capture -> option capture.

Definition orelse (a b : option capture) : option capture :=
  match a with Some _ => a | None => b end.

(** What a match starting at [s] and leaving [s'] has consumed. *)
Definition consumed (s s' : jsstring) : jsstring :=
  firstn (length s - length s') s.

(** An iteration of a quantifier whose minimum is 0 must consume input
    (the empty check of RepeatMatcher). *)
Definition progress (s : jsstring) (k : cont) : cont :=
  fun s' c' => if Nat.ltb (length s') (length s) then k s' c' else None.

(** The backtracking matcher, in continuation-passing style.  The result is
    the capture state of the first successful path, [None] if every path
    fails.  A star runs at most [length s] iterations: each one consumes. *)
Fixpoint m (r : regex) (s : jsstring) (c : capture) (k : cont) {struct r}
  : option capture :=
  match r with
  | Eps => k s c
  | Chr x =>
      match s with
      | y :: s' => if N.eqb y x then k s' c else None
      | [] => None
      end
  | Cls p =>
      match s with
      | y :: s' => if p y then k s' c else None
      | [] => None
      end
  | Seq r1 r2 => m r1 s c (fun s1 c1 => m r2 s1 c1 k)
  | Alt r1 r2 => orelse (m r1 s c k) (m r2 s c k)
  | Opt r1 => orelse (m r1 s c (progress s k)) (k s c)
  | Star greedy r1 =>
      (fix loop (n : nat) (s : jsstring) (c : capture) {struct n}
         : option capture :=
         match n with
         | O => k s c
         | S n' =>
             let again := m r1 s c (progress s (loop n')) in
             if greedy then orelse again (k s c) else orelse (k s c) again
         end) (length s) s c
  | Rep n r1 =>
      (fix times (n : nat) (s : jsstring) (c : capture) {struct n}
         : option capture :=
         match n with
         | O => k s c
         | S n' => m r1 s c (times n')
         end) n s c
  | Group r1 => m r1 s c (fun s' _ => k s' (Some (consumed s s')))
  end.

(** [RegExp.prototype.exec] without the [g] flag: the start index runs from
    0 up to the length of the input, the first index with a match wins.
    [None] is [null]; [Some c] is a match array whose element 1 is [c]. *)
Fixpoint exec (r : regex) (s : jsstring) : option capture :=
  match m r s None (fun _ c => Some c) with
  | Some c => Some c
  | None =>
      match s with
      | [] => None
      | _ :: s' => exec r s'
      end
  end.

(** [s.match(r)] for a pattern without the [g] flag. *)
Definition js_match (s : jsstring) (r : regex) : option capture := exec r s.

(** Element 1 of a match array, where a string is expected.  For the
    patterns of the sources it is never [undefined], the group lying on every
    path (lemma [group1_defined] below). *)
Definition group1 (c : capture) : jsstring :=
  match c with Some w => w | None => [] end.

End RegExp.
Import RegExp.

(* ------------------------------------------------------------------ *)
(** ** The patterns of the sources *)

Module Patterns.

Definition ch (a : ascii) : code_unit := unit_of_ascii a.

(** [[a-zA-Z0-9_-]] *)
Definition id_char (c : code_unit) : bool :=
  in_range (ch "a") (ch "z") c
  || in_range (ch "A") (ch "Z") c
  || in_range (ch "0") (ch "9") c
  || N.eqb c (ch "_")
  || N.eqb c (ch "-").

(** [[^\/\n\s]] *)
Definition not_slash_space (c : code_unit) : bool :=
  negb (N.eqb c (ch "/") || N.eqb c 10 || is_white_space c).

(** [\S] *)
Definition non_space (c : code_unit) : bool := negb (is_white_space c).

(** [[?&]] *)
Definition query_sep (c : code_unit) : bool :=
  N.eqb c (ch "?") || N.eqb c (ch "&").

(** [(?:https?:\/\/)?] *)
Definition scheme : regex :=
  Opt (Seq (Lit (js "http")) (Seq (Opt (Chr (ch "s"))) (Lit (js "://")))).

(** [(?:www\.)?] *)
Definition www : regex := Opt (Lit (js "www.")).

(** [(?:v|e(?:mbed)?)] *)
Definition v_or_embed : regex :=
  Alt (Chr (ch "v")) (Seq (Chr (ch "e")) (Opt (Lit (js "mbed")))).

(** [([a-zA-Z0-9_-]{11})] *)
Definition id_group : regex := Group (Rep 11 (Cls id_char)).

(** apiService.ts, [extractVideoId]:
    [(?:https?:\/\/)?(?:www\.)?
     (?:youtube\.com\/(?:[^\/\n\s]+\/\S+\/(?:v|e(?:mbed)?))
       |(?:v|e(?:mbed)?|watch)(?:\?v=|\/)
       |youtu\.be\/)
     ([a-zA-Z0-9_-]{11})] *)
Definition api_prefix : regex :=
  Seq scheme
 (Seq www
     (Alt (Seq (Lit (js "youtube.com/"))
               (Seq (Plus (Cls not_slash_space))
               (Seq (Chr (ch "/"))
               (Seq (Plus (Cls non_space))
               (Seq (Chr (ch "/"))
                    v_or_embed)))))
     (Alt (Seq (Alt (Chr (ch "v"))
               (Alt (Seq (Chr (ch "e")) (Opt (Lit (js "mbed"))))
                    (Lit (js "watch"))))
               (Alt (Lit (js "?v=")) (Chr (ch "/"))))
          (Lit (js "youtu.be/"))))).

Definition api_pattern : regex := Seq api_prefix id_group.

(** The Gemini service, [analyzeVideoSentiment]:
    [(?:https?:\/\/)?(?:www\.)?
     (?:youtube\.com\/(?:[^\/\n\s]+\/\S+\/|(?:v|e(?:mbed)?)\/|\S*?[?&]v=)
       |youtu\.be\/)
     ([a-zA-Z0-9_-]{11})] *)
Definition gemini_prefix : regex :=
  Seq scheme
 (Seq www
     (Alt (Seq (Lit (js "youtube.com/"))
               (Alt (Seq (Plus (Cls not_slash_space))
                    (Seq (Chr (ch "/"))
                    (Seq (Plus (Cls non_space))
                         (Chr (ch "/")))))
               (Alt (Seq v_or_embed (Chr (ch "/")))
                    (Seq (Star false (Cls non_space))
                    (Seq (Cls query_sep)
                         (Lit (js "v=")))))))
          (Lit (js "youtu.be/")))).

Definition gemini_pattern : regex := Seq gemini_prefix id_group.

End Patterns.
Import Patterns.


(* ------------------------------------------------------------------ *)
(** ** JSON values, as [JSON.parse] and [res.json()] return them *)

Module Json.

#[local] Unset Elimination Schemes.
Inductive value : Type :=
| JNull
| JBool (b : bool)
| JNum (q : Q)
| JStr (s : jsstring)
| JArr (items : list value)
| JObj (fields : list (string * value)).
#[local] Set Elimination Schemes.

Definition object := list (string * value).

(** [o.k]: [None] is [undefined]. *)
Fixpoint lookup (k : string) (o : object) : option value :=
  match o with
  | [] => None
  | (k', v) :: o' => if String.eqb k' k then Some v else lookup k o'
  end.

Definition get (k : string) (v : value) : option value :=
  match v with
  | JObj o => lookup k o
  | _ => None
  end.

(** [o.k = v] on an object literal under construction: an existing key keeps
    its place and takes the new value, a new key goes last. *)
Fixpoint assign (k : string) (v : value) (o : object) : object :=
  match o with
  | [] => [(k, v)]
  | (k', v') :: o' =>
      if String.eqb k' k then (k', v) :: o' else (k', v') :: assign k v o'
  end.

Definition index_key (i : nat) : string :=
  DecimalString.NilEmpty.string_of_uint (Nat.to_uint i).

Fixpoint indexed (i : nat) (vs : list value) : object :=
  match vs with
  | [] => []
  | v :: vs' => (index_key i, v) :: indexed (S i) vs'
  end.

(** The own enumerable properties [{ ...data }] copies: the fields of an
    object, the elements of an array, the code units of a string, nothing for
    [null], a boolean or a number. *)
Definition spread (data : value) : object :=
  match data with
  | JObj o => o
  | JArr items => indexed 0 items
  | JStr s => indexed 0 (map (fun c => JStr [c]) s)
  | JNull | JBool _ | JNum _ => []
  end.

Lemma lookup_assign k v o : lookup k (assign k v o) = Some v.
Proof.
  induction o as [| [k' v'] o IH]; simpl.
  - rewrite String.eqb_refl. reflexivity.
  - destruct (String.eqb k' k) eqn:E; simpl; rewrite E; [reflexivity | exact IH].
Qed.

Lemma lookup_assign_other k k' v o :
  k' <> k -> lookup k' (assign k v o) = lookup k' o.
Proof.
  intros Hk. induction o as [| [k0 v0] o IH]; simpl.
  - destruct (String.eqb_spec k k'); [congruence | reflexivity].
  - destruct (String.eqb_spec k0 k) as [-> | Hn]; simpl.
    + destruct (String.eqb_spec k k'); [congruence | reflexivity].
    + rewrite IH. reflexivity.
Qed.

Definition is_number (v : option value) : bool :=
  match v with Some (JNum _) => true | _ => false end.

Definition is_string (v : option value) : bool :=
  match v with Some (JStr _) => true | _ => false end.

(** types.ts: [interface SentimentComponents]. *)
Definition is_SentimentComponents (v : option value) : bool :=
  match v with
  | Some (JObj o) =>
      is_number (lookup "transcript_mean" o)
      && is_number (lookup "comments_mean" o)
      && is_number (lookup "engagement" o)
  | _ => false
  end.

(** types.ts: [interface SentimentData].  A TypeScript interface is erased
    at run time; this predicate is what it says of a value. *)
Definition is_SentimentData (v : value) : bool :=
  is_string (get "video_id" v)
  && is_number (get "score" v)
  && is_string (get "label" v)
  && is_SentimentComponents (get "components" v)
  && is_number (get "model_accuracy" v).

End Json.
Import Json.

(* ------------------------------------------------------------------ *)
(** ** Promises *)

Module Promise.

(** What the providers and the platform throw. *)
Inductive exn : Type :=
| FetchFailed                 (* fetch rejects: the network is unreachable *)
| BackendError (status : N)   (* new Error(`Backend error ${res.status}`)  *)
| SyntaxError                 (* the payload is not JSON text              *)
| GenerateFailed.             (* ai.models.generateContent rejects         *)

(** A settled promise of a [SentimentData]. *)
Inductive settled : Type :=
| Fulfilled (result : value)
| Rejected (err : exn).

End Promise.
Import Promise.

(** The capability the controller imports under the name
    [analyzeVideoSentiment]: the world answers the one outbound call. *)
Record AnalysisProvider : Type := {
  world : Type;
  analyze : world -> jsstring -> settled
}.

(* ------------------------------------------------------------------ *)
(** ** services/apiService.ts *)

Module ApiService.

(** [import.meta.env.VITE_BACKEND_URL || "http://localhost:8000"] *)
Definition BACKEND_URL (env : option jsstring) : jsstring :=
  match env with
  | Some u => if truthy u then u else js "http://localhost:8000"
  | None => js "http://localhost:8000"
  end.

Definition extractVideoId (input : jsstring) : jsstring :=
  match js_match input api_pattern with
  | Some mt => group1 mt
  | None => trim input
  end.

(** What [fetch] followed by [res.json()] can do.  [body] is the payload as
    [res.json()] reads it, [None] when it is not JSON text. *)
Inductive fetch_outcome : Type :=
| NetworkFailure
| Responded (status : N) (body : option value).

(** [res.ok] *)
Definition ok (status : N) : bool := in_range 200 299 status.

Definition request_url (env : option jsstring) (videoId : jsstring) : jsstring :=
  BACKEND_URL env ++ js "/analyse/" ++ videoId.

Section Service.
Variable env : option jsstring.

Definition analyzeVideoSentiment (fetch : jsstring -> fetch_outcome)
    (urlOrId : jsstring) : settled :=
  let videoId := extractVideoId urlOrId in
  match fetch (request_url env videoId) with
  | NetworkFailure => Rejected FetchFailed
  | Responded status body =>
      if negb (ok status) then Rejected (BackendError status)
      else match body with
           | None => Rejected SyntaxError
           | Some data => Fulfilled data
           end
  end.

Definition provider : AnalysisProvider :=
  {| world := jsstring -> fetch_outcome; analyze := analyzeVideoSentiment |}.
End Service.

End ApiService.

(* ------------------------------------------------------------------ *)
(** ** The Gemini service *)

Module GeminiService.

(** [const videoId = videoIdMatch ? videoIdMatch[1] : "unknown"] *)
Definition videoId (videoUrl : jsstring) : jsstring :=
  match js_match videoUrl gemini_pattern with
  | Some videoIdMatch => group1 videoIdMatch
  | None => js "unknown"
  end.

(** The [contents] of the request. *)
Definition contents (videoUrl : jsstring) : jsstring :=
  js "Analyze the probable sentiment of this YouTube video based on its ID/URL: "
  ++ videoUrl
  ++ js ". 
    Provide a realistic sentiment score between 0-100, a short label (e.g. Positive, Negative, Average), 
    and component means (transcript, comments, engagement) between 0 and 1. 
    Also provide a model accuracy percentage between 70-95.".

(** What [generateContent] followed by [JSON.parse(response.text)] can do.
    [parsed] is [None] when [JSON.parse] throws. *)
Inductive generate_outcome : Type :=
| Failed
| Generated (parsed : option value).

Definition analyzeVideoSentiment (generateContent : jsstring -> generate_outcome)
    (videoUrl : jsstring) : settled :=
  let videoId := videoId videoUrl in
  match generateContent (contents videoUrl) with
  | Failed => Rejected GenerateFailed
  | Generated None => Rejected SyntaxError
  | Generated (Some data) =>
      Fulfilled (JObj (assign "video_id" (JStr videoId) (spread data)))
  end.

Definition provider : AnalysisProvider :=
  {| world := jsstring -> generate_outcome; analyze := analyzeVideoSentiment |}.

End GeminiService.

(* ------------------------------------------------------------------ *)
(** ** types.ts and App.tsx: the controller *)

Module App.

Inductive AnalysisStatus : Type := IDLE | LOADING | SUCCESS | ERROR.

Definition status_eqb (a b : AnalysisStatus) : bool :=
  match a, b with
  | IDLE, IDLE | LOADING, LOADING | SUCCESS, SUCCESS | ERROR, ERROR => true
  | _, _ => false
  end.

(** The four [useState] cells of the component.  [data] is [JNull] for
    [null]; [error] is [None] for [null]. *)
Record State : Type := {
  url : jsstring;
  status : AnalysisStatus;
  data : value;
  error : option string
}.

(** The request state the presentation layer reads. *)
Definition request_state (s : State) : AnalysisStatus * value * option string :=
  (status s, data s, error s).

Definition initial_state : State :=
  {| url := []; status := IDLE; data := JNull; error := None |}.

Definition setUrl (v : jsstring) (s : State) : State :=
  {| url := v; status := status s; data := data s; error := error s |}.
Definition setStatus (v : AnalysisStatus) (s : State) : State :=
  {| url := url s; status := v; data := data s; error := error s |}.
Definition setData (v : value) (s : State) : State :=
  {| url := url s; status := status s; data := v; error := error s |}.
Definition setError (v : option string) (s : State) : State :=
  {| url := url s; status := status s; data := data s; error := v |}.

(** The message of the [catch] clause. *)
Definition failure_message : string :=
  "Failed to process video. Please check the URL and try again.".

(** The component together with what is outside its state: the calls to
    [analyzeVideoSentiment] that have not settled yet, each with its
    argument, and what [console.error] has printed. *)
Record Config : Type := {
  state : State;
  pending : list jsstring;
  console : list exn
}.

Definition initial : Config :=
  {| state := initial_state; pending := []; console := [] |}.

(** [handleSubmit] up to its [await]: the early return on an empty trimmed
    [url], else the three setters and the call. *)
Definition handleSubmit (c : Config) : Config :=
  let s := state c in
  if negb (truthy (trim (url s))) then c
  else
    {| state := setData JNull (setError None (setStatus LOADING s));
       pending := pending c ++ [url s];
       console := console c |}.

(** [handleSubmit] from its [await] on: the rest of the [try] block when the
    promise is fulfilled, the [catch] clause when it is rejected.  Nothing is
    rethrown: the promise of [handleSubmit] itself is always fulfilled. *)
Definition resume (r : settled) (c : Config) : Config :=
  match r with
  | Fulfilled result =>
      {| state := setStatus SUCCESS (setData result (state c));
         pending := pending c;
         console := console c |}
  | Rejected err =>
      {| state := setStatus ERROR (setError (Some failure_message) (state c));
         pending := pending c;
         console := console c ++ [err] |}
  end.

(** [disabled={status === AnalysisStatus.LOADING}] on the submit button: a
    form whose submit button is disabled is not submitted, by a click or by
    Enter in the text field. *)
Definition button_disabled (s : State) : bool := status_eqb (status s) LOADING.

Fixpoint remove_nth {A} (i : nat) (l : list A) : list A :=
  match i, l with
  | _, [] => []
  | O, _ :: l' => l'
  | S i', a :: l' => a :: remove_nth i' l'
  end.

Section Controller.
Variable P : AnalysisProvider.

(** What can happen to the component. *)
Inductive event : Type :=
| Change (v : jsstring)            (* onChange of the text field        *)
| Submit                           (* onSubmit of the form              *)
| Settle (i : nat) (w : world P).  (* the i-th pending call settles     *)

(** One event; [None] when the event cannot happen in this
    configuration.  Whether the page of the configuration can be rendered
    is not asked here: the events of a component that a failed render has
    taken off the page are allowed too, so what holds of every run holds of
    the runs of the component on the page. *)
Definition dispatch (e : event) (c : Config) : option Config :=
  match e with
  | Change v =>
      Some {| state := setUrl v (state c);
              pending := pending c;
              console := console c |}
  | Submit =>
      if button_disabled (state c) then None else Some (handleSubmit c)
  | Settle i w =>
      match nth_error (pending c) i with
      | None => None
      | Some arg =>
          Some (resume (analyze P w arg)
                  {| state := state c;
                     pending := remove_nth i (pending c);
                     console := console c |})
      end
  end.

Fixpoint run (es : list event) (c : Config) : option Config :=
  match es with
  | [] => Some c
  | e :: es' =>
      match dispatch e c with
      | Some c' => run es' c'
      | None => None
      end
  end.

(** A user types [input] into the empty form and submits it, and the world
    answers the call with [w]. *)
Definition submit_and_settle (input : jsstring) (w : world P) : option Config :=
  run [Change input; Submit; Settle 0 w] initial.
End Controller.

Arguments Change P v : clear implicits.
Arguments Submit P : clear implicits.
Arguments Settle P i w : clear implicits.
Arguments dispatch P e c : clear implicits.
Arguments run P es c : clear implicits.
Arguments submit_and_settle P input w : clear implicits.

End App.
Import App.

(* ------------------------------------------------------------------ *)
(** ** What a pattern denotes, and the matcher against it *)

Module Denotation.

(** [Matches r w c c']: [r] can consume exactly the word [w], taking the
    capture state from [c] to [c'].  No priorities here: this is the set of
    all paths the backtracking matcher may explore. *)
Inductive Matches : regex -> jsstring -> capture -> capture -> Prop :=
| MEps c : Matches Eps [] c c
| MChr x c : Matches (Chr x) [x] c c
| MCls (p : code_unit -> bool) x c : p x = true -> Matches (Cls p) [x] c c
| MSeq r1 r2 w1 w2 c c1 c2 :
    Matches r1 w1 c c1 -> Matches r2 w2 c1 c2 ->
    Matches (Seq r1 r2) (w1 ++ w2) c c2
| MAltL r1 r2 w c c' : Matches r1 w c c' -> Matches (Alt r1 r2) w c c'
| MAltR r1 r2 w c c' : Matches r2 w c c' -> Matches (Alt r1 r2) w c c'
| MOptSkip r c : Matches (Opt r) [] c c
| MOptTake r w c c' : Matches r w c c' -> w <> [] -> Matches (Opt r) w c c'
| MStarStop g r c : Matches (Star g r) [] c c
| MStarIter g r w1 w2 c c1 c2 :
    Matches r w1 c c1 -> w1 <> [] -> Matches (Star g r) w2 c1 c2 ->
    Matches (Star g r) (w1 ++ w2) c c2
| MRepO r c : Matches (Rep 0 r) [] c c
| MRepS n r w1 w2 c c1 c2 :
    Matches r w1 c c1 -> Matches (Rep n r) w2 c1 c2 ->
    Matches (Rep (S n) r) (w1 ++ w2) c c2
| MGroup r w c c' : Matches r w c c' -> Matches (Group r) w c (Some w).

Create HintDb regex.
#[export] Hint Constructors Matches : regex.

(** The two loops of [m], named. *)
Section Loops.
Variable body : jsstring -> capture -> cont -> option capture.
Variable k : cont.
Variable greedy : bool.

Fixpoint star_loop (n : nat) (s : jsstring) (c : capture) {struct n}
  : option capture :=
  match n with
  | O => k s c
  | S n' =>
      let again := body s c (progress s (star_loop n')) in
      if greedy then orelse again (k s c) else orelse (k s c) again
  end.

Fixpoint rep_loop (n : nat) (s : jsstring) (c : capture) {struct n}
  : option capture :=
  match n with
  | O => k s c
  | S n' => body s c (rep_loop n')
  end.
End Loops.

Lemma m_Star g r s c k :
  m (Star g r) s c k = star_loop (m r) k g (length s) s c.
Proof. reflexivity. Qed.

Lemma m_Rep n r s c k : m (Rep n r) s c k = rep_loop (m r) k n s c.
Proof. reflexivity. Qed.

Lemma orelse_Some a b res :
  orelse a b = Some res -> a = Some res \/ (a = None /\ b = Some res).
Proof. destruct a; simpl; intros H; [left | right]; auto. Qed.

Lemma orelse_not_None_l a b : a <> None -> orelse a b <> None.
Proof. destruct a; simpl; congruence. Qed.

Lemma orelse_not_None_r a b : b <> None -> orelse a b <> None.
Proof. destruct a; simpl; congruence. Qed.

Lemma consumed_app w s' : consumed (w ++ s') s' = w.
Proof.
  unfold consumed. rewrite length_app.
  replace (length w + length s' - length s')%nat with (length w + 0)%nat by lia.
  rewrite firstn_app_2. simpl. apply app_nil_r.
Qed.

Lemma progress_Some s k s' c' res :
  progress s k s' c' = Some res ->
  (length s' < length s)%nat /\ k s' c' = Some res.
Proof.
  unfold progress. destruct (Nat.ltb_spec (length s') (length s)); [auto | discriminate].
Qed.

Lemma progress_app w s' k c' :
  w <> [] -> progress (w ++ s') k s' c' = k s' c'.
Proof.
  intros Hw. unfold progress.
  destruct (Nat.ltb_spec (length s') (length (w ++ s'))) as [_ | H]; [reflexivity |].
  rewrite length_app in H. destruct w; [congruence | simpl in H; lia].
Qed.

(** A successful run of the matcher is one of the denoted paths. *)
Definition sound_at (r : regex) : Prop :=
  forall s c k res,
    m r s c k = Some res ->
    exists w s' c', s = w ++ s' /\ Matches r w c c' /\ k s' c' = Some res.

Lemma star_loop_sound g r (IH : sound_at r) k n :
  forall s c res,
    star_loop (m r) k g n s c = Some res ->
    exists w s' c', s = w ++ s' /\ Matches (Star g r) w c c' /\ k s' c' = Some res.
Proof.
  induction n as [| n IHn]; intros s c res H; simpl in H.
  - exists [], s, c. auto with regex.
  - assert (Hstop : k s c = Some res ->
              exists w s' c', s = w ++ s' /\ Matches (Star g r) w c c'
                              /\ k s' c' = Some res)
      by (intros Hk; exists [], s, c; auto with regex).
    assert (Hiter : m r s c (progress s (star_loop (m r) k g n)) = Some res ->
              exists w s' c', s = w ++ s' /\ Matches (Star g r) w c c'
                              /\ k s' c' = Some res).
    { intros Hb. apply IH in Hb. destruct Hb as (w1 & s1 & c1 & -> & M1 & Hp).
      apply progress_Some in Hp. destruct Hp as [Hlt Hl].
      apply IHn in Hl. destruct Hl as (w2 & s2 & c2 & -> & M2 & Hk).
      exists (w1 ++ w2), s2, c2. rewrite <- app_assoc. repeat split; auto.
      eapply MStarIter; eauto.
      intros ->. simpl in Hlt. lia. }
    destruct g; apply orelse_Some in H; destruct H as [H | [_ H]]; auto.
Qed.

Lemma rep_loop_sound r (IH : sound_at r) k n :
  forall s c res,
    rep_loop (m r) k n s c = Some res ->
    exists w s' c', s = w ++ s' /\ Matches (Rep n r) w c c' /\ k s' c' = Some res.
Proof.
  induction n as [| n IHn]; intros s c res H; simpl in H.
  - exists [], s, c. auto with regex.
  - apply IH in H. destruct H as (w1 & s1 & c1 & -> & M1 & Hl).
    apply IHn in Hl. destruct Hl as (w2 & s2 & c2 & -> & M2 & Hk).
    exists (w1 ++ w2), s2, c2. rewrite <- app_assoc. eauto with regex.
Qed.

Lemma m_sound r : sound_at r.
Proof.
  induction r as [| x | p | r1 IH1 r2 IH2 | r1 IH1 r2 IH2 | r1 IH1
                 | g r1 IH1 | n r1 IH1 | r1 IH1];
    intros s c k res H.
  - exists [], s, c. simpl in H. auto with regex.
  - simpl in H. destruct s as [| y s']; [discriminate |].
    destruct (N.eqb_spec y x) as [-> | _]; [| discriminate].
    exists [x], s', c. auto with regex.
  - simpl in H. destruct s as [| y s']; [discriminate |].
    destruct (p y) eqn:Hp; [| discriminate].
    exists [y], s', c. auto with regex.
  - simpl in H. apply IH1 in H. destruct H as (w1 & s1 & c1 & -> & M1 & H).
    apply IH2 in H. destruct H as (w2 & s2 & c2 & -> & M2 & H).
    exists (w1 ++ w2), s2, c2. rewrite <- app_assoc. eauto with regex.
  - simpl in H. apply orelse_Some in H. destruct H as [H | [_ H]].
    + apply IH1 in H. destruct H as (w & s' & c' & -> & M & H). eauto 7 with regex.
    + apply IH2 in H. destruct H as (w & s' & c' & -> & M & H). eauto 7 with regex.
  - simpl in H. apply orelse_Some in H. destruct H as [H | [_ H]].
    + apply IH1 in H. destruct H as (w & s' & c' & -> & M & H).
      apply progress_Some in H. destruct H as [Hlt H].
      exists w, s', c'. repeat split; auto.
      apply MOptTake; auto. intros ->. simpl in Hlt. lia.
    + exists [], s, c. auto with regex.
  - rewrite m_Star in H. eapply star_loop_sound; eauto.
  - rewrite m_Rep in H. eapply rep_loop_sound; eauto.
  - simpl in H. apply IH1 in H. destruct H as (w & s' & c' & -> & M & H).
    rewrite consumed_app in H. eauto 7 with regex.
Qed.

(** Every denoted path whose continuation succeeds makes the matcher
    succeed (on that path or on one of higher priority). *)
Definition complete_at (r : regex) : Prop :=
  forall w c c', Matches r w c c' ->
  forall s' k, k s' c' <> None -> m r (w ++ s') c k <> None.

Lemma star_loop_complete g r (IH : complete_at r) k w c c' :
  Matches (Star g r) w c c' ->
  forall s' n, (length (w ++ s') <= n)%nat -> k s' c' <> None ->
  star_loop (m r) k g n (w ++ s') c <> None.
Proof.
  intros M. remember (Star g r) as sr eqn:E.
  induction M; try discriminate; injection E as -> ->; intros s' n Hn Hk.
  - destruct n; simpl; [assumption |].
    destruct g; [apply orelse_not_None_r | apply orelse_not_None_l]; assumption.
  - destruct n as [| n].
    { rewrite !length_app in Hn. destruct w1; [congruence | simpl in Hn; lia]. }
    simpl.
    assert (Hb : m r (w1 ++ w2 ++ s') c
                   (progress (w1 ++ w2 ++ s') (star_loop (m r) k g n)) <> None).
    { eapply IH; eauto. rewrite progress_app by assumption.
      apply IHM2; auto.
      rewrite !length_app in *. destruct w1; [congruence | simpl in Hn; lia]. }
    rewrite <- app_assoc.
    destruct g; [apply orelse_not_None_l | apply orelse_not_None_r]; assumption.
Qed.

Lemma rep_loop_complete r (IH : complete_at r) k n :
  forall w c c', Matches (Rep n r) w c c' ->
  forall s', k s' c' <> None -> rep_loop (m r) k n (w ++ s') c <> None.
Proof.
  induction n as [| n IHn]; intros w c c' M s' Hk; inversion M; subst; simpl.
  - assumption.
  - rewrite <- app_assoc. eapply IH; eauto.
Qed.

Lemma m_complete r : complete_at r.
Proof.
  induction r as [| x | p | r1 IH1 r2 IH2 | r1 IH1 r2 IH2 | r1 IH1
                 | g r1 IH1 | n r1 IH1 | r1 IH1];
    intros w c c' M s' k Hk.
  - inversion M; subst. assumption.
  - inversion M; subst. simpl. rewrite N.eqb_refl. assumption.
  - inversion M; subst. simpl. rewrite H0. assumption.
  - inversion M; subst. simpl. rewrite <- app_assoc.
    eapply IH1; eauto.
  - inversion M; subst; simpl.
    + apply orelse_not_None_l. eapply IH1; eauto.
    + apply orelse_not_None_r. eapply IH2; eauto.
  - inversion M; subst; simpl.
    + apply orelse_not_None_r. assumption.
    + apply orelse_not_None_l. eapply IH1; eauto.
      rewrite progress_app; assumption.
  - rewrite m_Star. eapply star_loop_complete; eauto.
  - rewrite m_Rep. eapply rep_loop_complete; eauto.
  - inversion M; subst. simpl. eapply IH1; eauto. simpl.
    rewrite consumed_app. assumption.
Qed.


(** The matcher calls its continuation on suffixes of the input only, so
    two continuations that agree there give the same result. *)
Definition agree_below (s : jsstring) (k1 k2 : cont) : Prop :=
  forall s' c', (length s' <= length s)%nat -> k1 s' c' = k2 s' c'.

Lemma agree_below_shorter s s1 k1 k2 :
  agree_below s k1 k2 -> (length s1 <= length s)%nat -> agree_below s1 k1 k2.
Proof. intros H L s' c' L'. apply H. lia. Qed.

Lemma progress_agree s k1 k2 :
  agree_below s k1 k2 -> agree_below s (progress s k1) (progress s k2).
Proof.
  intros H s' c' L. unfold progress.
  destruct (Nat.ltb (length s') (length s)); [apply H, L | reflexivity].
Qed.

Definition ext_at (r : regex) : Prop :=
  forall s c k1 k2, agree_below s k1 k2 -> m r s c k1 = m r s c k2.

Lemma star_loop_ext g r (IH : ext_at r) k1 k2 n :
  forall s c, agree_below s k1 k2 ->
  star_loop (m r) k1 g n s c = star_loop (m r) k2 g n s c.
Proof.
  induction n as [| n IHn]; intros s c H; simpl.
  - apply H. lia.
  - rewrite (H s c) by lia.
    rewrite (IH s c (progress s (star_loop (m r) k1 g n))
                    (progress s (star_loop (m r) k2 g n))); [reflexivity |].
    intros s' c' L. unfold progress.
    destruct (Nat.ltb (length s') (length s)); [| reflexivity].
    apply IHn. eapply agree_below_shorter; eauto.
Qed.

Lemma rep_loop_ext r (IH : ext_at r) k1 k2 n :
  forall s c, agree_below s k1 k2 ->
  rep_loop (m r) k1 n s c = rep_loop (m r) k2 n s c.
Proof.
  induction n as [| n IHn]; intros s c H; simpl.
  - apply H. lia.
  - apply IH. intros s' c' L. apply IHn. eapply agree_below_shorter; eauto.
Qed.

Lemma m_ext r : ext_at r.
Proof.
  induction r as [| x | p | r1 IH1 r2 IH2 | r1 IH1 r2 IH2 | r1 IH1
                 | g r1 IH1 | n r1 IH1 | r1 IH1];
    intros s c k1 k2 H.
  - simpl. apply H. lia.
  - simpl. destruct s as [| y s']; [reflexivity |].
    destruct (N.eqb y x); [apply H; simpl; lia | reflexivity].
  - simpl. destruct s as [| y s']; [reflexivity |].
    destruct (p y); [apply H; simpl; lia | reflexivity].
  - simpl. apply IH1. intros s1 c1 L. apply IH2.
    eapply agree_below_shorter; eauto.
  - simpl. rewrite (IH1 s c k1 k2 H), (IH2 s c k1 k2 H). reflexivity.
  - simpl. rewrite (H s c) by lia.
    rewrite (IH1 s c _ _ (progress_agree H)). reflexivity.
  - rewrite !m_Star. apply star_loop_ext; assumption.
  - rewrite !m_Rep. apply rep_loop_ext; assumption.
  - simpl. apply IH1. intros s' c' L. apply H, L.
Qed.

Lemma m_no_continuation r s c k :
  (forall s' c', (length s' <= length s)%nat -> k s' c' = None) ->
  m r s c k = None.
Proof.
  intros H. rewrite (@m_ext r s c k (fun _ _ => None)) by exact H.
  destruct (m r s c (fun _ _ => None)) as [res |] eqn:E; [| reflexivity].
  apply m_sound in E. destruct E as (_ & _ & _ & _ & _ & E). discriminate.
Qed.

Lemma orelse_None_r a : orelse a None = a.
Proof. destruct a; reflexivity. Qed.

(** The bound on the iterations of a star loses nothing: any bound at least
    the length of the input gives the same result. *)
Lemma star_fuel g r k n : forall n' s c,
  (length s <= n)%nat -> (length s <= n')%nat ->
  star_loop (m r) k g n s c = star_loop (m r) k g n' s c.
Proof.
  assert (Stuck : forall n0 c, star_loop (m r) k g n0 [] c = k [] c).
  { intros [| n0] c; simpl; [reflexivity |].
    rewrite m_no_continuation by (intros s' c' _; reflexivity).
    destruct g; simpl; [reflexivity | apply orelse_None_r]. }
  induction n as [| n IHn]; intros n' s c L L'.
  - destruct s; [| simpl in L; lia]. rewrite !Stuck. reflexivity.
  - destruct n' as [| n'].
    { destruct s; [| simpl in L'; lia]. rewrite !Stuck. reflexivity. }
    simpl.
    rewrite (@m_ext r s c (progress s (star_loop (m r) k g n))
                         (progress s (star_loop (m r) k g n'))); [reflexivity |].
    intros s' c' _. unfold progress.
    destruct (Nat.ltb_spec (length s') (length s)); [| reflexivity].
    apply IHn; lia.
Qed.

(** Hence the equation of RepeatMatcher for [r*] and [r*?], without a
    bound: one more iteration that consumes input, then the star again. *)
Lemma m_Star_unfold g r s c k :
  m (Star g r) s c k =
  let again := m r s c (progress s (fun s' c' => m (Star g r) s' c' k)) in
  if g then orelse again (k s c) else orelse (k s c) again.
Proof.
  rewrite m_Star.
  rewrite (@star_fuel g r k (length s) (S (length s)) s c) by lia.
  simpl.
  rewrite (@m_ext r s c (progress s (star_loop (m r) k g (length s)))
                       (progress s (fun s' c' => m (Star g r) s' c' k)));
    [reflexivity |].
  intros s' c' L. unfold progress.
  destruct (Nat.ltb (length s') (length s)); [| reflexivity].
  rewrite m_Star. apply star_fuel; lia.
Qed.

(** [exec] tries every start index: a result is a denoted match of some
    infix, and a denoted match of any infix yields a result. *)
Lemma exec_sound r x cp :
  exec r x = Some cp ->
  exists u w v, x = u ++ w ++ v /\ Matches r w None cp.
Proof.
  induction x as [| a x IH]; simpl.
  - destruct (m r [] None (fun _ c => Some c)) eqn:E; [| discriminate].
    intros [= <-]. apply m_sound in E.
    destruct E as (w & s' & c' & Hs & M & [= <-]). exists [], w, s'. auto.
  - destruct (m r (a :: x) None (fun _ c => Some c)) eqn:E.
    + intros [= <-]. apply m_sound in E.
      destruct E as (w & s' & c' & Hs & M & [= <-]). exists [], w, s'. auto.
    + intros H. apply IH in H. destruct H as (u & w & v & -> & M).
      exists (a :: u), w, v. auto.
Qed.

Lemma exec_complete r u w v c' :
  Matches r w None c' -> exec r (u ++ w ++ v) <> None.
Proof.
  intros M.
  assert (H0 : m r (w ++ v) None (fun _ c => Some c) <> None)
    by (eapply m_complete; eauto; discriminate).
  induction u as [| a u IH]; simpl.
  - destruct (w ++ v); simpl;
      destruct (m r _ None (fun _ c => Some c)); congruence.
  - destruct (m r (a :: u ++ w ++ v) None (fun _ c => Some c)); congruence.
Qed.

(** A character that every word of the pattern must contain. *)
Fixpoint always_has (p : code_unit -> bool) (r : regex) : bool :=
  match r with
  | Eps => false
  | Chr x => p x
  | Cls _ => false
  | Seq r1 r2 => always_has p r1 || always_has p r2
  | Alt r1 r2 => always_has p r1 && always_has p r2
  | Opt _ => false
  | Star _ _ => false
  | Rep n r1 => match n with O => false | S _ => always_has p r1 end
  | Group r1 => always_has p r1
  end.

Lemma always_has_sound p r w c c' :
  Matches r w c c' -> always_has p r = true -> existsb p w = true.
Proof.
  induction 1; simpl; intros Hp; try discriminate.
  all: rewrite ?existsb_app.
  all: try (apply orb_true_iff in Hp; destruct Hp as [Hp | Hp]).
  all: try (apply andb_true_iff in Hp; destruct Hp as [Hp1 Hp2]).
  all: try (rewrite Hp; reflexivity).
  all: rewrite ?orb_true_iff; auto.
Qed.

Lemma exec_needs p r x :
  always_has p r = true -> existsb p x = false -> exec r x = None.
Proof.
  intros Hr Hx. destruct (exec r x) as [cp |] eqn:E; [| reflexivity].
  apply exec_sound in E. destruct E as (u & w & v & -> & M).
  apply (always_has_sound p) in M; [| assumption].
  rewrite !existsb_app, M, orb_true_r in Hx. discriminate.
Qed.

Lemma rep_cls_inv n p : forall w c c',
  Matches (Rep n (Cls p)) w c c' -> length w = n /\ forallb p w = true.
Proof.
  induction n as [| n IH]; intros w c c' M; inversion M; subst.
  - auto.
  - match goal with H : Matches (Cls p) _ _ _ |- _ => inversion H; subst end.
    match goal with H : Matches (Rep n _) _ _ _ |- _ => apply IH in H; destruct H as [<- Hf] end.
    simpl. split; [reflexivity |].
    match goal with H : p _ = true |- _ => rewrite H end. assumption.
Qed.

Lemma rep_cls_intro p : forall w c,
  forallb p w = true -> Matches (Rep (length w) (Cls p)) w c c.
Proof.
  induction w as [| a w IH]; simpl; intros c H.
  - constructor.
  - apply andb_true_iff in H. destruct H as [Ha Hw].
    change (a :: w) with ([a] ++ w). eauto with regex.
Qed.

End Denotation.
Import Denotation.

(* ------------------------------------------------------------------ *)
(** ** Facts about [trim] and the character classes *)

Module Facts.

Ltac to_prop :=
  repeat match goal with
  | H : _ || _ = true |- _ => apply orb_true_iff in H; destruct H as [H | H]
  | H : _ && _ = true |- _ => apply andb_true_iff in H; destruct H
  | H : N.leb _ _ = true |- _ => apply N.leb_le in H
  | H : N.eqb _ _ = true |- _ => apply N.eqb_eq in H
  | H : in_range _ _ _ = true |- _ => unfold in_range in H
  end.

Lemma id_char_not_space c : id_char c = true -> is_white_space c = false.
Proof.
  intros H. apply not_true_is_false. intros W.
  unfold id_char, is_white_space, ch, unit_of_ascii in *. simpl in H.
  to_prop; subst; lia.
Qed.

(** [/] and [?]: the characters one of which every match of the
    apiService pattern contains. *)
Definition slash_or_query (c : code_unit) : bool :=
  N.eqb c (ch "/") || N.eqb c (ch "?").

Definition slash (c : code_unit) : bool := N.eqb c (ch "/").

Lemma id_char_not_slash_or_query c :
  id_char c = true -> slash_or_query c = false.
Proof.
  intros H. apply not_true_is_false. intros W.
  unfold id_char, slash_or_query, ch, unit_of_ascii in *. simpl in H, W.
  to_prop; subst; lia.
Qed.

Lemma white_space_not_slash_or_query c :
  is_white_space c = true -> slash_or_query c = false.
Proof.
  intros H. apply not_true_is_false. intros W.
  unfold is_white_space, slash_or_query, ch, unit_of_ascii in *. simpl in W.
  to_prop; subst; lia.
Qed.

Lemma slash_is_slash_or_query c : slash_or_query c = false -> slash c = false.
Proof. unfold slash_or_query, slash. intros H. apply orb_false_iff in H. tauto. Qed.

Lemma trimStart_split s :
  exists l, s = l ++ trimStart s /\ forallb is_white_space l = true.
Proof.
  induction s as [| a s (l & E & Hl)]; simpl.
  - exists []. auto.
  - destruct (is_white_space a) eqn:W.
    + exists (a :: l). simpl. rewrite W, Hl. split; [congruence | reflexivity].
    + exists []. auto.
Qed.

Lemma trimEnd_split s :
  exists r, s = trimEnd s ++ r /\ forallb is_white_space r = true.
Proof.
  unfold trimEnd. destruct (trimStart_split (rev s)) as (l & E & Hl).
  exists (rev l). split.
  - rewrite <- rev_app_distr, <- E, rev_involutive. reflexivity.
  - rewrite forallb_forall in *. intros c Hc. apply Hl, in_rev, Hc.
Qed.

Lemma trim_split s :
  exists l r, s = l ++ trim s ++ r
              /\ forallb is_white_space l = true
              /\ forallb is_white_space r = true.
Proof.
  unfold trim. destruct (trimStart_split s) as (l & E & Hl).
  destruct (trimEnd_split (trimStart s)) as (r & E' & Hr).
  exists l, r. rewrite <- E', <- E. auto.
Qed.

(** Nothing to strip at the front. *)
Definition starts_clean (s : jsstring) : bool :=
  match s with [] => true | a :: _ => negb (is_white_space a) end.

Lemma trimStart_clean s : starts_clean (trimStart s) = true.
Proof.
  induction s as [| a s IH]; simpl; [reflexivity |].
  destruct (is_white_space a) eqn:W; [assumption | simpl; rewrite W; reflexivity].
Qed.

Lemma trimStart_fixed s : starts_clean s = true -> trimStart s = s.
Proof.
  destruct s as [| a s]; simpl; [reflexivity |].
  destruct (is_white_space a); [discriminate | reflexivity].
Qed.

Lemma trimStart_snoc l a :
  is_white_space a = false -> exists l', trimStart (l ++ [a]) = l' ++ [a].
Proof.
  intros W. induction l as [| b l (l' & E)]; simpl.
  - rewrite W. exists []. reflexivity.
  - destruct (is_white_space b); [eauto |]. exists (b :: l). reflexivity.
Qed.

Lemma trimEnd_clean s : starts_clean s = true -> starts_clean (trimEnd s) = true.
Proof.
  destruct s as [| a s]; [reflexivity |]. simpl. intros W.
  apply negb_true_iff in W. unfold trimEnd. simpl.
  destruct (trimStart_snoc (rev s) a W) as (l' & ->).
  rewrite rev_app_distr. simpl. rewrite W. reflexivity.
Qed.

Lemma trimEnd_idem s : trimEnd (trimEnd s) = trimEnd s.
Proof.
  unfold trimEnd. rewrite rev_involutive.
  rewrite (trimStart_fixed (trimStart (rev s))); [reflexivity |].
  apply trimStart_clean.
Qed.

Lemma trim_idem s : trim (trim s) = trim s.
Proof.
  unfold trim.
  rewrite (trimStart_fixed (trimEnd (trimStart s))).
  - apply trimEnd_idem.
  - apply trimEnd_clean, trimStart_clean.
Qed.

Lemma forallb_rev (p : code_unit -> bool) s :
  forallb p s = true -> forallb p (rev s) = true.
Proof.
  rewrite !forallb_forall. intros H c Hc. apply H, in_rev, Hc.
Qed.

Lemma trimStart_no_space s :
  forallb non_space s = true -> trimStart s = s.
Proof.
  intros H. apply trimStart_fixed. destruct s as [| a s]; [reflexivity |].
  simpl in *. apply andb_true_iff in H. apply H.
Qed.

Lemma trim_no_space s : forallb non_space s = true -> trim s = s.
Proof.
  intros H. unfold trim, trimEnd. rewrite (trimStart_no_space s H).
  rewrite (trimStart_no_space (rev s)) by (apply forallb_rev, H).
  apply rev_involutive.
Qed.

Lemma forallb_impl (p q : code_unit -> bool) s :
  (forall c, p c = true -> q c = true) ->
  forallb p s = true -> forallb q s = true.
Proof. rewrite !forallb_forall. auto. Qed.

Lemma trim_identifier s : forallb id_char s = true -> trim s = s.
Proof.
  intros H. apply trim_no_space. revert H. apply forallb_impl.
  intros c Hc. unfold non_space. rewrite (id_char_not_space c Hc). reflexivity.
Qed.

Lemma existsb_none (p q : code_unit -> bool) s :
  (forall c, q c = true -> p c = false) ->
  forallb q s = true -> existsb p s = false.
Proof.
  intros Hpq. induction s as [| a s IH]; simpl; [reflexivity |].
  intros H. apply andb_true_iff in H. destruct H as [Ha Hs].
  rewrite (Hpq a Ha), IH; auto.
Qed.

End Facts.
Import Facts.

(* ------------------------------------------------------------------ *)
(** ** What the two patterns match *)

Module PatternFacts.

Fixpoint has_group (r : regex) : bool :=
  match r with
  | Eps | Chr _ | Cls _ => false
  | Seq r1 r2 | Alt r1 r2 => has_group r1 || has_group r2
  | Opt r1 | Star _ r1 | Rep _ r1 => has_group r1
  | Group _ => true
  end.

Lemma no_group_capture r w c c' :
  Matches r w c c' -> has_group r = false -> c' = c.
Proof.
  induction 1; simpl; intros Hg; try reflexivity; try discriminate;
    try (apply orb_false_iff in Hg; destruct Hg as [Hg1 Hg2]); auto.
  - rewrite IHMatches2, IHMatches1; auto.
  - rewrite IHMatches2, IHMatches1; auto.
  - rewrite IHMatches2, IHMatches1; auto.
Qed.

Lemma id_group_inv w c c' :
  Matches id_group w c c' ->
  length w = 11%nat /\ forallb id_char w = true /\ c' = Some w.
Proof.
  intros M. inversion M; subst.
  match goal with H : Matches (Rep _ _) _ _ _ |- _ => apply rep_cls_inv in H end.
  tauto.
Qed.

Lemma id_group_intro w c :
  length w = 11%nat -> forallb id_char w = true ->
  Matches id_group w c (Some w).
Proof.
  intros L F. unfold id_group. rewrite <- L.
  eapply MGroup. apply rep_cls_intro, F.
Qed.

Lemma pattern_inv pre w cp :
  has_group pre = false ->
  Matches (Seq pre id_group) w None cp ->
  exists p id, w = p ++ id /\ Matches pre p None None
               /\ length id = 11%nat /\ forallb id_char id = true
               /\ cp = Some id.
Proof.
  intros Hg M. inversion M; subst.
  match goal with H : Matches pre _ _ _ |- _ =>
    pose proof (no_group_capture H Hg); subst end.
  match goal with H : Matches id_group _ _ _ |- _ =>
    apply id_group_inv in H; destruct H as (L & F & ->) end.
  eauto 10.
Qed.

Lemma match_inv pre x mt :
  has_group pre = false ->
  js_match x (Seq pre id_group) = Some mt ->
  exists u p id v, x = u ++ p ++ id ++ v /\ Matches pre p None None
                   /\ length id = 11%nat /\ forallb id_char id = true
                   /\ mt = Some id.
Proof.
  intros Hg E. apply exec_sound in E. destruct E as (u & w & v & -> & M).
  apply pattern_inv in M; [| assumption].
  destruct M as (p & id & -> & Mp & L & F & ->).
  exists u, p, id, v. rewrite <- app_assoc. auto.
Qed.

Lemma group1_defined pre x :
  has_group pre = false -> js_match x (Seq pre id_group) <> Some None.
Proof.
  intros Hg E. apply match_inv in E; [| assumption].
  destruct E as (u & p & id & v & _ & _ & _ & _ & E). discriminate.
Qed.

Lemma api_prefix_no_group : has_group api_prefix = false.
Proof. reflexivity. Qed.

Lemma gemini_prefix_no_group : has_group gemini_prefix = false.
Proof. reflexivity. Qed.

(** Without [/] and [?] nothing matches the apiService pattern; without
    [/] nothing matches the pattern of the Gemini service. *)
Lemma api_needs_slash_or_query x :
  existsb slash_or_query x = false -> js_match x api_pattern = None.
Proof. apply exec_needs. reflexivity. Qed.

Lemma gemini_needs_slash x :
  existsb slash x = false -> js_match x gemini_pattern = None.
Proof. apply exec_needs. reflexivity. Qed.

Lemma existsb_slash x :
  existsb slash_or_query x = false -> existsb slash x = false.
Proof.
  induction x as [| a x IH]; simpl; [reflexivity |].
  intros H. apply orb_false_iff in H. destruct H as [Ha Hx].
  rewrite (slash_is_slash_or_query a Ha), IH; auto.
Qed.

(** A bare identifier: once trimmed, only characters of [[a-zA-Z0-9_-]]. *)
Definition bare_identifier (x : jsstring) : Prop :=
  forallb id_char (trim x) = true.

Lemma bare_identifier_plain x :
  bare_identifier x -> existsb slash_or_query x = false.
Proof.
  unfold bare_identifier. intros H.
  destruct (trim_split x) as (l & r & E & Hl & Hr). rewrite E.
  rewrite !existsb_app.
  rewrite (existsb_none slash_or_query is_white_space l white_space_not_slash_or_query Hl).
  rewrite (existsb_none slash_or_query is_white_space r white_space_not_slash_or_query Hr).
  rewrite (existsb_none slash_or_query id_char (trim x) id_char_not_slash_or_query H).
  reflexivity.
Qed.

Lemma identifier_bare id : forallb id_char id = true -> bare_identifier id.
Proof.
  intros H. unfold bare_identifier. rewrite trim_identifier; assumption.
Qed.

End PatternFacts.
Import PatternFacts.

(* ------------------------------------------------------------------ *)
(** ** Canonical URLs *)

Module Canonical.

(** A character outside [[a-zA-Z0-9_-]]. *)
Definition non_id (c : code_unit) : bool := negb (id_char c).

(** In [t], a character outside the identifier alphabet that is not the last
    one is followed by another such character within the next 11. *)
Fixpoint separated (t : jsstring) : bool :=
  match t with
  | [] => true
  | c :: t' =>
      (id_char c
       || match t' with [] => true | _ :: _ => existsb non_id (firstn 11 t') end)
      && separated t'
  end.

Definition at_end : cont :=
  fun s c => match s with [] => Some c | _ :: _ => None end.

(** Some suffix of [s] is a word of [r]. *)
Fixpoint ends_with (r : regex) (s : jsstring) : bool :=
  match m r s None at_end with
  | Some _ => true
  | None => match s with [] => false | _ :: s' => ends_with r s' end
  end.

(** The URL prefixes on which the two services are compared. *)
Definition canonical_prefixes : list jsstring :=
  flat_map (fun scheme =>
    flat_map (fun host =>
      map (fun path => js scheme ++ js host ++ js path)
          ["youtu.be/"; "youtube.com/watch?v="; "youtube.com/embed/";
           "youtube.com/v/"]%string)
      [""; "www."]%string)
    [""; "http://"; "https://"]%string.

Definition comparable (pre : jsstring) : bool :=
  separated pre && ends_with api_prefix pre && ends_with gemini_prefix pre.

Lemma ends_with_sound r s :
  ends_with r s = true ->
  exists u p c', s = u ++ p /\ Matches r p None c'.
Proof.
  induction s as [| a s IH]; simpl.
  - destruct (m r [] None at_end) eqn:E; [| discriminate].
    intros _. apply m_sound in E. destruct E as (w & s' & c' & Hs & M & K).
    destruct s'; [| discriminate]. rewrite app_nil_r in Hs. subst w.
    exists [], [], c'. auto.
  - destruct (m r (a :: s) None at_end) eqn:E.
    + intros _. apply m_sound in E. destruct E as (w & s' & c' & Hs & M & K).
      destruct s'; [| discriminate]. rewrite app_nil_r in Hs. subst w.
      exists [], (a :: s), c'. auto.
    + intros H. apply IH in H. destruct H as (u & p & c' & -> & M).
      exists (a :: u), p, c'. auto.
Qed.

Lemma last_non_id p :
  existsb non_id p = true ->
  exists p' c t, p = p' ++ c :: t /\ non_id c = true /\ forallb id_char t = true.
Proof.
  induction p as [| a p IH]; simpl; [discriminate |].
  destruct (existsb non_id p) eqn:E.
  - intros _. destruct IH as (p' & c & t & -> & Hc & Ht); [reflexivity |].
    exists (a :: p'), c, t. auto.
  - intros H. rewrite orb_false_r in H. exists [], a, p.
    repeat split; auto.
    clear - E. induction p as [| b p IH]; simpl in *; [reflexivity |].
    apply orb_false_iff in E. destruct E as [Eb Ep].
    unfold non_id in Eb. apply negb_false_iff in Eb. rewrite Eb. auto.
Qed.

Lemma separated_split pre : forall a c t,
  separated pre = true -> pre = a ++ c :: t -> non_id c = true -> t <> [] ->
  existsb non_id (firstn 11 t) = true.
Proof.
  induction pre as [| b pre IH]; intros a c t S E Hc Ht.
  - destruct a; discriminate.
  - simpl in S. apply andb_true_iff in S. destruct S as [S1 S2].
    destruct a as [| a0 a]; simpl in E; injection E as -> ->.
    + unfold non_id in Hc. apply negb_true_iff in Hc. rewrite Hc in S1.
      simpl in S1. destruct t; [congruence | exact S1].
    + eapply IH; eauto.
Qed.

Lemma existsb_firstn_app (q : code_unit -> bool) n l l' :
  existsb q (firstn n l) = true -> existsb q (firstn n (l ++ l')) = true.
Proof.
  revert n. induction l as [| a l IH]; intros [| n]; simpl; try discriminate.
  intros H. apply orb_true_iff in H. destruct H as [-> | H]; [reflexivity |].
  rewrite (IH n H). apply orb_true_r.
Qed.

Lemma forallb_firstn (q : code_unit -> bool) n l :
  forallb q l = true -> forallb q (firstn n l) = true.
Proof.
  revert n. induction l as [| a l IH]; intros [| n]; simpl; auto.
  intros H. apply andb_true_iff in H. destruct H as [-> H]. simpl. auto.
Qed.

Lemma all_and_some (q : code_unit -> bool) l :
  forallb q l = true -> existsb (fun c => negb (q c)) l = true -> False.
Proof.
  induction l as [| a l IH]; simpl; [discriminate |].
  intros H E. apply andb_true_iff in H. destruct H as [Ha Hl].
  rewrite Ha in E. simpl in E. auto.
Qed.

Lemma id_char_in c l : forallb id_char l = true -> In c l -> non_id c = false.
Proof.
  intros H I. rewrite forallb_forall in H. unfold non_id. rewrite (H c I).
  reflexivity.
Qed.

(** In [pre ++ id] the only place for 11 identifier characters that directly
    follow a word with a character outside the alphabet is [id] itself. *)
Lemma unique_candidate pre id u p id' v :
  separated pre = true ->
  length id = 11%nat -> forallb id_char id = true ->
  pre ++ id = u ++ p ++ id' ++ v ->
  existsb non_id p = true ->
  length id' = 11%nat -> forallb id_char id' = true ->
  id' = id.
Proof.
  intros S L F E Hp L' F'.
  destruct (last_non_id p Hp) as (p' & c & t & -> & Hc & Ht).
  replace (u ++ (p' ++ c :: t) ++ id' ++ v)
    with ((u ++ p') ++ c :: (t ++ id' ++ v)) in E
    by (rewrite <- !app_assoc; reflexivity).
  apply app_eq_app in E. destruct E as (l & [[E1 E2] | [E1 E2]]).
  - destruct l as [| c0 l].
    + simpl in E2. rewrite <- E2 in F.
      assert (non_id c = false) by (eapply id_char_in; [exact F | left; reflexivity]).
      congruence.
    + simpl in E2. injection E2 as <- E2.
      destruct l as [| c1 l].
      * simpl in E2. subst id.
        rewrite !length_app in L. 
        assert (t = []) by (destruct t; [reflexivity | simpl in L; lia]).
        assert (v = []) by (destruct v; [reflexivity | simpl in L; lia]).
        subst. rewrite app_nil_r. reflexivity.
      * exfalso.
        assert (X : existsb non_id (firstn 11 (c1 :: l)) = true)
          by (eapply separated_split; eauto; discriminate).
        apply (existsb_firstn_app _ _ _ id) in X. rewrite <- E2 in X.
        rewrite app_assoc, firstn_app in X.
        replace (11 - length (t ++ id'))%nat with 0%nat in X
          by (rewrite length_app; lia).
        rewrite firstn_O, app_nil_r in X.
        eapply (all_and_some id_char); [| exact X].
        apply forallb_firstn. rewrite forallb_app, Ht, F'. reflexivity.
  - rewrite E2 in F.
    assert (non_id c = false).
    { eapply id_char_in; [exact F |]. apply in_or_app. right. left. reflexivity. }
    congruence.
Qed.

Lemma exec_canonical pre_r pre id :
  has_group pre_r = false ->
  always_has non_id pre_r = true ->
  separated pre = true -> ends_with pre_r pre = true ->
  length id = 11%nat -> forallb id_char id = true ->
  js_match (pre ++ id) (Seq pre_r id_group) = Some (Some id).
Proof.
  intros G A S W L F.
  destruct (ends_with_sound _ _ W) as (u0 & p0 & c0 & E0 & M0).
  pose proof (no_group_capture M0 G). subst c0.
  destruct (js_match (pre ++ id) (Seq pre_r id_group)) as [mt |] eqn:E.
  - apply match_inv in E; [| assumption].
    destruct E as (u & p & id' & v & E & M & L' & F' & ->).
    f_equal. f_equal.
    eapply unique_candidate; eauto.
    eapply always_has_sound; eauto.
  - exfalso. revert E. unfold js_match.
    replace (pre ++ id) with (u0 ++ (p0 ++ id) ++ [])
      by (rewrite app_nil_r, app_assoc, <- E0; reflexivity).
    eapply exec_complete. eapply MSeq; [exact M0 |].
    apply id_group_intro; assumption.
Qed.

Lemma comparable_extracts pre id :
  comparable pre = true ->
  length id = 11%nat -> forallb id_char id = true ->
  js_match (pre ++ id) api_pattern = Some (Some id)
  /\ js_match (pre ++ id) gemini_pattern = Some (Some id).
Proof.
  intros C L F. unfold comparable in C.
  apply andb_true_iff in C. destruct C as [C W2].
  apply andb_true_iff in C. destruct C as [S W1].
  unfold api_pattern, gemini_pattern.
  rewrite !exec_canonical; auto.
Qed.

Lemma canonical_comparable :
  forallb comparable canonical_prefixes = true.
Proof. vm_compute. reflexivity. Qed.

End Canonical.
Import Canonical.

(* ------------------------------------------------------------------ *)
(** ** Normalisation of the raw input *)

Module Normalisation.

Import ApiService GeminiService.

Lemma extractVideoId_plain x :
  existsb slash_or_query x = false -> extractVideoId x = trim x.
Proof.
  intros H. unfold extractVideoId. rewrite api_needs_slash_or_query; auto.
Qed.

Lemma videoId_plain x :
  existsb slash x = false -> videoId x = js "unknown".
Proof.
  intros H. unfold videoId. rewrite gemini_needs_slash; auto.
Qed.

Lemma extractVideoId_shape x :
  js_match x api_pattern <> None ->
  exists u p id v, x = u ++ p ++ id ++ v /\ Matches api_prefix p None None
                   /\ length id = 11%nat /\ forallb id_char id = true
                   /\ extractVideoId x = id.
Proof.
  intros H. unfold extractVideoId.
  destruct (js_match x api_pattern) as [mt |] eqn:E; [| congruence].
  apply match_inv in E; [| reflexivity].
  destruct E as (u & p & id & v & E & M & L & F & ->).
  exists u, p, id, v. auto.
Qed.

Lemma videoId_shape x :
  js_match x gemini_pattern <> None ->
  exists u p id v, x = u ++ p ++ id ++ v /\ Matches gemini_prefix p None None
                   /\ length id = 11%nat /\ forallb id_char id = true
                   /\ videoId x = id.
Proof.
  intros H. unfold videoId.
  destruct (js_match x gemini_pattern) as [mt |] eqn:E; [| congruence].
  apply match_inv in E; [| reflexivity].
  destruct E as (u & p & id & v & E & M & L & F & ->).
  exists u, p, id, v. auto.
Qed.

Lemma extractVideoId_of_identifier id :
  forallb id_char id = true -> extractVideoId id = id.
Proof.
  intros F. rewrite extractVideoId_plain.
  - apply trim_identifier, F.
  - apply bare_identifier_plain, identifier_bare, F.
Qed.

Lemma videoId_of_identifier id :
  forallb id_char id = true -> videoId id = js "unknown".
Proof.
  intros F. apply videoId_plain, existsb_slash, bare_identifier_plain,
    identifier_bare, F.
Qed.

Lemma no_match_in_trim r x : js_match x r = None -> js_match (trim x) r = None.
Proof.
  intros H. destruct (js_match (trim x) r) as [mt |] eqn:E; [| reflexivity].
  exfalso. apply exec_sound in E. destruct E as (u & w & v & E & M).
  destruct (trim_split x) as (l & t & Ex & _ & _).
  apply (exec_complete (l ++ u) (v ++ t)) in M. apply M.
  replace ((l ++ u) ++ w ++ v ++ t) with (l ++ (u ++ w ++ v) ++ t)
    by (rewrite <- !app_assoc; reflexivity).
  rewrite <- E, <- Ex. exact H.
Qed.

(** C4, as amended.  On a bare identifier [extractVideoId] of apiService
    returns the trimmed input unchanged, and the [videoId] of the Gemini service
    is the literal [unknown]. *)
Theorem bare_identifier_normalised (x : jsstring) :
  bare_identifier x ->
  extractVideoId x = trim x /\ videoId x = js "unknown".
Proof.
  intros B. apply bare_identifier_plain in B. split.
  - apply extractVideoId_plain, B.
  - apply videoId_plain, existsb_slash, B.
Qed.

Lemma bare_identifier_normalised_witness :
  trim (js "  Ks-_Mh1QhMc  ") = js "Ks-_Mh1QhMc"
  /\ extractVideoId (js "  Ks-_Mh1QhMc  ") = trim (js "  Ks-_Mh1QhMc  ")
  /\ videoId (js "  Ks-_Mh1QhMc  ") = js "unknown".
Proof.
  split; [vm_compute; reflexivity |].
  apply (@bare_identifier_normalised (js "  Ks-_Mh1QhMc  ")).
  vm_compute. reflexivity.
Defined.

(** C4, as stated, fails for the Gemini service: the bare identifier of the
    scenario is not returned trimmed. *)
Lemma gemini_bare_identifier_unknown :
  bare_identifier (js "  Ks-_Mh1QhMc  ")
  /\ videoId (js "  Ks-_Mh1QhMc  ") <> trim (js "  Ks-_Mh1QhMc  ")
  /\ videoId (js "  Ks-_Mh1QhMc  ") <> js "Ks-_Mh1QhMc".
Proof.
  split; [vm_compute; reflexivity |].
  split; vm_compute; discriminate.
Qed.

(** C5, as amended.  [extractVideoId] of apiService is idempotent.  The
    [videoId] of the Gemini service applied twice is always [unknown]. *)
Theorem normalisation_twice (x : jsstring) :
  extractVideoId (extractVideoId x) = extractVideoId x
  /\ videoId (videoId x) = js "unknown".
Proof.
  split.
  - destruct (js_match x api_pattern) as [mt |] eqn:E.
    + destruct (extractVideoId_shape x) as (u & p & id & v & _ & _ & _ & F & ->);
        [congruence |].
      apply extractVideoId_of_identifier, F.
    + unfold extractVideoId at 2 3. rewrite E.
      unfold extractVideoId. rewrite (no_match_in_trim _ _ E).
      apply trim_idem.
  - destruct (js_match x gemini_pattern) as [mt |] eqn:E.
    + destruct (videoId_shape x) as (u & p & id & v & _ & _ & _ & F & ->);
        [congruence |].
      apply videoId_of_identifier, F.
    + unfold videoId at 2. rewrite E. reflexivity.
Qed.

(** C5, as stated, fails for the Gemini service: the identifier it extracts
    from a shortened URL is not a fixed point. *)
Lemma gemini_normalisation_not_idempotent :
  videoId (videoId (js "https://youtu.be/Ks-_Mh1QhMc"))
  <> videoId (js "https://youtu.be/Ks-_Mh1QhMc").
Proof. vm_compute. discriminate. Qed.

End Normalisation.

(* ------------------------------------------------------------------ *)
(** ** Where the two services agree *)

Module Agreement.

Import ApiService GeminiService.

(** C9, as amended.  On a canonical URL, that is [youtu.be/],
    [youtube.com/watch?v=], [youtube.com/embed/] or [youtube.com/v/],
    with or without [http://] or [https://] and [www.] in front, followed by
    exactly an 11-character identifier, [extractVideoId] of apiService and
    the [videoId] of the Gemini service are the same: that identifier. *)
Theorem services_agree_on_canonical_urls (pre id : jsstring) :
  In pre canonical_prefixes ->
  length id = 11%nat -> forallb id_char id = true ->
  extractVideoId (pre ++ id) = id /\ videoId (pre ++ id) = id.
Proof.
  intros I L F.
  pose proof canonical_comparable as C. rewrite forallb_forall in C.
  destruct (comparable_extracts pre id (C pre I) L F) as [Ea Eg].
  unfold extractVideoId, videoId. rewrite Ea, Eg. split; reflexivity.
Qed.

Lemma services_agree_on_canonical_urls_witness :
  extractVideoId (js "https://www.youtube.com/watch?v=" ++ js "Ks-_Mh1QhMc")
  = js "Ks-_Mh1QhMc"
  /\ videoId (js "https://www.youtube.com/watch?v=" ++ js "Ks-_Mh1QhMc")
     = js "Ks-_Mh1QhMc".
Proof.
  apply (@services_agree_on_canonical_urls
           (js "https://www.youtube.com/watch?v=") (js "Ks-_Mh1QhMc")).
  - vm_compute. tauto.
  - reflexivity.
  - vm_compute. reflexivity.
Defined.

(** C9, as stated, fails: on a bare identifier apiService keeps the input
    and the Gemini service answers [unknown]; on a watch URL whose [v] is not the
    first parameter apiService keeps the whole URL and the other extracts
    the identifier. *)
Lemma services_disagree :
  extractVideoId (js "Ks-_Mh1QhMc") = js "Ks-_Mh1QhMc"
  /\ videoId (js "Ks-_Mh1QhMc") = js "unknown"
  /\ extractVideoId (js "Ks-_Mh1QhMc") <> videoId (js "Ks-_Mh1QhMc")
  /\ extractVideoId (js "https://www.youtube.com/watch?feature=share&v=Ks-_Mh1QhMc")
     <> videoId (js "https://www.youtube.com/watch?feature=share&v=Ks-_Mh1QhMc").
Proof.
  split; [vm_compute; reflexivity |].
  split; [vm_compute; reflexivity |].
  split; vm_compute; discriminate.
Qed.

End Agreement.

(* ------------------------------------------------------------------ *)
(** ** The controller *)

Module Controller.

Import ApiService GeminiService.

Lemma trimStart_white s : forallb is_white_space s = true -> trimStart s = [].
Proof.
  induction s as [| a s IH]; simpl; [reflexivity |].
  intros H. apply andb_true_iff in H. destruct H as [-> Hs]. auto.
Qed.

Lemma trim_white s : forallb is_white_space s = true -> trim s = [].
Proof. intros H. unfold trim. rewrite trimStart_white; auto. Qed.

(** The body of the scenarios: every field of [SentimentData] but
    [video_id]. *)
Definition body_without_video_id : value :=
  JObj [("score", JNum 81.4%Q);
        ("label", JStr (js "Positive"));
        ("components", JObj [("transcript_mean", JNum 0.7%Q);
                             ("comments_mean", JNum 0.6%Q);
                             ("engagement", JNum 0.5%Q)]);
        ("model_accuracy", JNum 88.2%Q)]%string.

Definition body_with_video_id (id : jsstring) : value :=
  JObj (("video_id", JStr id) :: spread body_without_video_id)%string.

(** The configuration after [input] has been typed and submitted: the one
    call is pending. *)
Definition loading (input : jsstring) : Config :=
  {| state := {| url := input; status := LOADING; data := JNull;
                 error := None |};
     pending := [input]; console := [] |}.

(** A result on display, and blank text in the field. *)
Definition showing_result : Config :=
  {| state := {| url := js "   "; status := SUCCESS;
                 data := body_with_video_id (js "Ks-_Mh1QhMc");
                 error := None |};
     pending := []; console := [] |}.

(** An outcome of [fetch] that is a failure of the call: a rejection, or a
    status outside 200..299. *)
Definition fetch_failed (o : fetch_outcome) : bool :=
  match o with
  | NetworkFailure => true
  | Responded status _ => negb (ok status)
  end.

Section AnyProvider.
Variable P : AnalysisProvider.

Lemma settle_rejected c i arg w err :
  nth_error (pending c) i = Some arg ->
  analyze P w arg = Rejected err ->
  exists c', dispatch P (Settle P i w) c = Some c'
             /\ status (state c') = ERROR
             /\ error (state c') = Some failure_message
             /\ data (state c') = data (state c)
             /\ console c' = console c ++ [err].
Proof.
  intros Hn Ha. simpl. rewrite Hn, Ha. eexists. split; [reflexivity |].
  simpl. auto.
Qed.

Lemma settle_fulfilled c i arg w result :
  nth_error (pending c) i = Some arg ->
  analyze P w arg = Fulfilled result ->
  exists c', dispatch P (Settle P i w) c = Some c'
             /\ status (state c') = SUCCESS
             /\ data (state c') = result
             /\ error (state c') = error (state c)
             /\ console c' = console c.
Proof.
  intros Hn Ha. simpl. rewrite Hn, Ha. eexists. split; [reflexivity |].
  simpl. auto.
Qed.

Lemma settle_success_inv c i arg w c' :
  nth_error (pending c) i = Some arg ->
  dispatch P (Settle P i w) c = Some c' ->
  status (state c') = SUCCESS ->
  analyze P w arg = Fulfilled (data (state c')).
Proof.
  simpl. intros ->. destruct (analyze P w arg); intros [= <-]; simpl.
  - reflexivity.
  - discriminate.
Qed.

(** At most one call is pending, and exactly when the status is
    [LOADING]; its argument is an input that is not empty once trimmed. *)
Definition single_flight (c : Config) : Prop :=
  (status (state c) = LOADING
   /\ exists arg, pending c = [arg] /\ trim arg <> [])
  \/ (status (state c) <> LOADING /\ pending c = []).

Lemma single_flight_initial : single_flight initial.
Proof. right. split; [discriminate | reflexivity]. Qed.

Lemma status_eqb_eq a b : status_eqb a b = true <-> a = b.
Proof. destruct a, b; simpl; split; (congruence || discriminate). Qed.

Lemma single_flight_step e c c' :
  single_flight c -> dispatch P e c = Some c' -> single_flight c'.
Proof.
  intros I D. destruct e as [v | | i w]; simpl in D.
  - injection D as <-. destruct I as [[L E] | [L E]]; [left | right]; auto.
  - unfold button_disabled in D.
    destruct (status_eqb (status (state c)) LOADING) eqn:B; [discriminate |].
    injection D as <-.
    destruct I as [[L _] | [L E]].
    { rewrite L in B. discriminate. }
    unfold handleSubmit.
    destruct (trim (url (state c))) as [| a t] eqn:T; simpl.
    + right. auto.
    + left. simpl. split; [reflexivity |].
      exists (url (state c)). rewrite E, T. split; [reflexivity | discriminate].
  - destruct (nth_error (pending c) i) as [arg |] eqn:N; [| discriminate].
    injection D as <-.
    destruct I as [[L (a & E & T)] | [L E]].
    + rewrite E in *. destruct i as [| i]; [| destruct i; discriminate].
      right. destruct (analyze P w arg); simpl; split;
        (discriminate || reflexivity).
    + rewrite E in N. destruct i; discriminate.
Qed.

Lemma single_flight_run es : forall c c',
  single_flight c -> run P es c = Some c' -> single_flight c'.
Proof.
  induction es as [| e es IH]; simpl; intros c c' I R.
  - injection R as <-. exact I.
  - destruct (dispatch P e c) as [c1 |] eqn:D; [| discriminate].
    eapply IH; [| exact R]. eapply single_flight_step; eauto.
Qed.

(** C10.  Along every sequence of events from the initial configuration
    (status [IDLE], nothing pending): at most one call is pending, and
    exactly while the status is [LOADING]; an event that leaves the
    component in [SUCCESS] or [ERROR] is either a keystroke or an ignored
    empty submission, which leave status, data, error and the pending calls
    as they were, or the settling of the one pending call, from status
    [LOADING], that call having been issued for an input that is not empty
    once trimmed, and the new state being what [handleSubmit] makes of the
    result of that call alone.  The submit button is disabled while the
    status is [LOADING], so no form submission happens then. *)
Theorem outcome_follows_single_loading (es : list (event P)) (c : Config) :
  run P es initial = Some c ->
  single_flight c
  /\ forall e c',
       dispatch P e c = Some c' ->
       status (state c') = SUCCESS \/ status (state c') = ERROR ->
       (((exists v, e = Change P v) \/ e = Submit P)
        /\ request_state (state c') = request_state (state c)
        /\ pending c' = pending c)
       \/ (status (state c) = LOADING
           /\ exists arg w,
                e = Settle P 0 w
                /\ pending c = [arg] /\ trim arg <> []
                /\ pending c' = []
                /\ c' = resume (analyze P w arg)
                          {| state := state c; pending := [];
                             console := console c |}).
Proof.
  intros R.
  assert (I : single_flight c)
    by (eapply single_flight_run; eauto using single_flight_initial).
  split; [exact I |].
  intros e c' D S. destruct e as [v | | i w].
  - left. split; [left; exists v; reflexivity |].
    simpl in D. injection D as <-. split; reflexivity.
  - left. split; [right; reflexivity |].
    simpl in D. unfold button_disabled in D.
    destruct (status_eqb (status (state c)) LOADING) eqn:B; [discriminate |].
    injection D as <-. unfold handleSubmit in *.
    destruct (trim (url (state c))); simpl in *.
    + split; reflexivity.
    + destruct S; discriminate.
  - right. simpl in D.
    destruct (nth_error (pending c) i) as [arg |] eqn:N; [| discriminate].
    injection D as <-.
    destruct I as [[L (a & E & T)] | [L E]].
    + rewrite E in N. destruct i as [| i]; [| destruct i; discriminate].
      injection N as <-. split; [exact L |].
      exists a, w. rewrite E. simpl.
      repeat split; auto. destruct (analyze P w a); reflexivity.
    + rewrite E in N. destruct i; discriminate.
Qed.
End AnyProvider.


Lemma outcome_follows_single_loading_witness :
  single_flight (loading (js "abc")).
Proof.
  exact (proj1 (@outcome_follows_single_loading (ApiService.provider None)
                  [Change _ (js "abc"); Submit _] (loading (js "abc")) eq_refl)).
Defined.

(** [handleSubmit] itself does not look at the status: run while a call is
    pending, it would issue a second one.  What keeps the calls apart is the
    disabled button, [button_disabled] in [dispatch]. *)
Remark handleSubmit_unguarded input :
  trim input <> [] -> pending (handleSubmit (loading input)) = [input; input].
Proof.
  intros T. unfold handleSubmit. simpl.
  destruct (trim input); [congruence | reflexivity].
Qed.

(** C7.  With an empty or whitespace-only text in the field, [handleSubmit]
    returns before any setter: the configuration is the same afterwards, so
    status, data and error are unchanged and no call has been issued. *)
Theorem empty_submission_ignored (P : AnalysisProvider) (c : Config) :
  forallb is_white_space (url (state c)) = true ->
  handleSubmit c = c
  /\ forall c', dispatch P (Submit P) c = Some c' ->
                request_state (state c') = request_state (state c)
                /\ pending c' = pending c.
Proof.
  intros W.
  assert (H : handleSubmit c = c)
    by (unfold handleSubmit; rewrite (trim_white _ W); reflexivity).
  split; [exact H |].
  intros c' D. simpl in D.
  destruct (button_disabled (state c)); [discriminate |].
  injection D as <-. rewrite H. split; reflexivity.
Qed.

Lemma empty_submission_ignored_witness :
  handleSubmit showing_result = showing_result.
Proof.
  exact (proj1 (@empty_submission_ignored (ApiService.provider None)
                  showing_result eq_refl)).
Defined.

(** C8.  When the pending call fails (apiService: [fetch] rejects or the
    status is outside 200..299; the Gemini service: [generateContent] rejects),
    the [catch] clause of [handleSubmit] runs: the settling is an ordinary
    step of the component, the status becomes [ERROR], the message shown is
    the fixed text of [failure_message], which is not empty and is the same
    for every cause, and the cause itself goes to the console only. *)
Theorem provider_failure_becomes_error (c : Config) (i : nat) (arg : jsstring) :
  nth_error (pending c) i = Some arg ->
  (forall env fetch,
      fetch_failed (fetch (request_url env (extractVideoId arg))) = true ->
      exists c' cause,
        dispatch (ApiService.provider env) (Settle (ApiService.provider env) i fetch) c = Some c'
        /\ status (state c') = ERROR
        /\ error (state c') = Some failure_message
        /\ failure_message <> ""%string
        /\ data (state c') = data (state c)
        /\ console c' = console c ++ [cause])
  /\
  (forall generateContent,
      generateContent (contents arg) = Failed ->
      exists c',
        dispatch GeminiService.provider (Settle GeminiService.provider i generateContent) c = Some c'
        /\ status (state c') = ERROR
        /\ error (state c') = Some failure_message
        /\ failure_message <> ""%string
        /\ data (state c') = data (state c)
        /\ console c' = console c ++ [GenerateFailed]).
Proof.
  intros N. split.
  - intros env fetch F.
    assert (R : exists cause,
               analyze (ApiService.provider env) fetch arg = Rejected cause).
    { simpl. unfold ApiService.analyzeVideoSentiment.
      destruct (fetch (request_url env (extractVideoId arg))) as [| st body];
        simpl in F.
      - eauto.
      - rewrite F. eauto. }
    destruct R as (cause & R).
    destruct (settle_rejected (ApiService.provider env) c i fetch N R)
      as (c' & D & S & E & Dt & Cn).
    exists c', cause. repeat split; auto. discriminate.
  - intros generateContent F.
    assert (R : analyze GeminiService.provider generateContent arg
                = Rejected GenerateFailed).
    { simpl. unfold GeminiService.analyzeVideoSentiment. rewrite F. reflexivity. }
    destruct (settle_rejected GeminiService.provider c i generateContent N R)
      as (c' & D & S & E & Dt & Cn).
    exists c'. repeat split; auto. discriminate.
Qed.

Lemma provider_failure_becomes_error_witness :
  exists c' cause,
    dispatch (ApiService.provider None)
      (Settle (ApiService.provider None) 0 (fun _ => Responded 500 None))
      (loading (js "abc")) = Some c'
    /\ status (state c') = ERROR
    /\ error (state c') = Some failure_message
    /\ failure_message <> ""%string
    /\ data (state c') = data (state (loading (js "abc")))
    /\ console c' = console (loading (js "abc")) ++ [cause].
Proof.
  exact (proj1 (@provider_failure_becomes_error (loading (js "abc")) 0 (js "abc")
                  eq_refl)
           None (fun _ => Responded 500 None) eq_refl).
Defined.

(** C1, as amended.  When the pending call succeeds under the Gemini service,
    the data of the [SUCCESS] state has [video_id] equal to the identifier
    computed locally from the submitted text, whatever the parsed response
    held.  Under apiService the data is the response body as parsed: its
    [video_id] is the one the backend sent, if any. *)
Theorem success_video_id (c : Config) (i : nat) (arg : jsstring) :
  nth_error (pending c) i = Some arg ->
  (forall generateContent c',
      dispatch GeminiService.provider (Settle GeminiService.provider i generateContent) c = Some c' ->
      status (state c') = SUCCESS ->
      get "video_id" (data (state c')) = Some (JStr (videoId arg)))
  /\
  (forall env fetch c',
      dispatch (ApiService.provider env) (Settle (ApiService.provider env) i fetch) c = Some c' ->
      status (state c') = SUCCESS ->
      exists st,
        ok st = true
        /\ fetch (request_url env (extractVideoId arg))
           = Responded st (Some (data (state c')))).
Proof.
  intros N. split.
  - intros generateContent c' D S.
    pose proof (settle_success_inv GeminiService.provider c i generateContent N D S) as A.
    simpl in A. unfold GeminiService.analyzeVideoSentiment in A.
    destruct (generateContent (contents arg)) as [| [d |]]; try discriminate.
    injection A as <-. simpl. apply lookup_assign.
  - intros env fetch c' D S.
    pose proof (settle_success_inv (ApiService.provider env) c i fetch N D S) as A.
    simpl in A. unfold ApiService.analyzeVideoSentiment in A.
    destruct (fetch (request_url env (extractVideoId arg))) as [| st [d |]];
      try discriminate; destruct (ok st) eqn:O; simpl in A; try discriminate.
    injection A as <-. exists st. auto.
Qed.

(** The Gemini service is asked about a shortened URL and answers with another
    identifier. *)
Definition hallucinated : Config :=
  resume
    (analyze GeminiService.provider
       (fun _ => Generated (Some (body_with_video_id (js "XYZ123"))))
       (js "https://youtu.be/Ks-_Mh1QhMc"))
    {| state := state (loading (js "https://youtu.be/Ks-_Mh1QhMc"));
       pending := []; console := [] |}.

Lemma success_video_id_witness :
  get "video_id" (data (state hallucinated))
  = Some (JStr (videoId (js "https://youtu.be/Ks-_Mh1QhMc"))).
Proof.
  exact (proj1 (@success_video_id (loading (js "https://youtu.be/Ks-_Mh1QhMc"))
                  0 (js "https://youtu.be/Ks-_Mh1QhMc") eq_refl)
           (fun _ => Generated (Some (body_with_video_id (js "XYZ123"))))
           hallucinated eq_refl eq_refl).
Defined.

(** C1, as stated, fails for apiService: the backend answers a request for
    [ABC456] with [video_id = XYZ123], and that is what the [SUCCESS] state
    holds. *)
Lemma api_success_keeps_returned_video_id :
  exists c,
    submit_and_settle (ApiService.provider None) (js "ABC456")
      (fun _ => Responded 200 (Some (body_with_video_id (js "XYZ123")))) = Some c
    /\ status (state c) = SUCCESS
    /\ extractVideoId (js "ABC456") = js "ABC456"
    /\ get "video_id" (data (state c)) = Some (JStr (js "XYZ123"))
    /\ get "video_id" (data (state c))
       <> Some (JStr (extractVideoId (js "ABC456"))).
Proof.
  eexists. split; [reflexivity |].
  split; [reflexivity |]. split; [vm_compute; reflexivity |].
  split; [reflexivity |]. vm_compute. discriminate.
Qed.

(** C2, as amended.  A payload that is not JSON text makes the pending
    call fail and the status [ERROR], with the text of [failure_message],
    under both providers.  A payload that parses is not checked against
    [SentimentData]: under apiService a 2xx response makes the status
    [SUCCESS] with the parsed value as data, under the Gemini service the status
    is [SUCCESS] with the own properties of the parsed value and the local
    [video_id]. *)
Theorem payload_not_validated (c : Config) (i : nat) (arg : jsstring) :
  nth_error (pending c) i = Some arg ->
  (forall env fetch st,
      fetch (request_url env (extractVideoId arg)) = Responded st None ->
      exists c',
        dispatch (ApiService.provider env)
          (Settle (ApiService.provider env) i fetch) c = Some c'
        /\ status (state c') = ERROR
        /\ error (state c') = Some failure_message)
  /\
  (forall generateContent,
      generateContent (contents arg) = Generated None ->
      exists c',
        dispatch GeminiService.provider
          (Settle GeminiService.provider i generateContent) c = Some c'
        /\ status (state c') = ERROR
        /\ error (state c') = Some failure_message)
  /\
  (forall env fetch st body,
      fetch (request_url env (extractVideoId arg)) = Responded st (Some body) ->
      ok st = true ->
      exists c',
        dispatch (ApiService.provider env)
          (Settle (ApiService.provider env) i fetch) c = Some c'
        /\ status (state c') = SUCCESS
        /\ data (state c') = body)
  /\
  (forall generateContent parsed,
      generateContent (contents arg) = Generated (Some parsed) ->
      exists c',
        dispatch GeminiService.provider
          (Settle GeminiService.provider i generateContent) c = Some c'
        /\ status (state c') = SUCCESS
        /\ data (state c')
           = JObj (assign "video_id" (JStr (videoId arg)) (spread parsed))).
Proof.
  intros N. split; [| split; [| split]].
  - intros env fetch st H.
    assert (R : exists cause,
               analyze (ApiService.provider env) fetch arg = Rejected cause).
    { simpl. unfold ApiService.analyzeVideoSentiment. rewrite H.
      destruct (ok st); simpl; eauto. }
    destruct R as (cause & R).
    destruct (settle_rejected (ApiService.provider env) c i fetch N R)
      as (c' & D & S & E & _).
    eauto.
  - intros generateContent H.
    assert (R : analyze GeminiService.provider generateContent arg
                = Rejected SyntaxError).
    { simpl. unfold GeminiService.analyzeVideoSentiment. rewrite H. reflexivity. }
    destruct (settle_rejected GeminiService.provider c i generateContent N R)
      as (c' & D & S & E & _).
    eauto.
  - intros env fetch st body H O.
    assert (R : analyze (ApiService.provider env) fetch arg = Fulfilled body).
    { simpl. unfold ApiService.analyzeVideoSentiment. rewrite H, O. reflexivity. }
    destruct (settle_fulfilled (ApiService.provider env) c i fetch N R)
      as (c' & D & S & E & _).
    eauto.
  - intros generateContent parsed H.
    assert (R : analyze GeminiService.provider generateContent arg
                = Fulfilled (JObj (assign "video_id" (JStr (videoId arg))
                                     (spread parsed)))).
    { simpl. unfold GeminiService.analyzeVideoSentiment. rewrite H. reflexivity. }
    destruct (settle_fulfilled GeminiService.provider c i generateContent N R)
      as (c' & D & S & E & _).
    eauto.
Qed.

Lemma payload_not_validated_witness :
  exists c',
    dispatch (ApiService.provider None)
      (Settle (ApiService.provider None) 0 (fun _ => Responded 200 None))
      (loading (js "abc")) = Some c'
    /\ status (state c') = ERROR
    /\ error (state c') = Some failure_message.
Proof.
  exact (proj1 (@payload_not_validated (loading (js "abc")) 0 (js "abc") eq_refl)
           None (fun _ => Responded 200 None) 200 eq_refl).
Defined.

(** C2, as stated, fails: an empty object has none of the required fields,
    and the backend sending it with status 200 leads to [SUCCESS]. *)
Lemma missing_fields_reach_success :
  is_SentimentData (JObj []) = false
  /\ exists c,
       submit_and_settle (ApiService.provider None) (js "abc")
         (fun _ => Responded 200 (Some (JObj []))) = Some c
       /\ status (state c) = SUCCESS
       /\ status (state c) <> ERROR.
Proof.
  split; [reflexivity |].
  eexists. split; [reflexivity |]. split; [reflexivity | discriminate].
Qed.

(** C3, as amended.  The backend answers the request for [abc] with status
    200 and the body of the scenario, which has no [video_id]: the final
    status is [SUCCESS], the data is that body as parsed, and its [video_id]
    is [undefined].  Under the Gemini service the same parsed payload gives
    [SUCCESS] with [video_id = unknown], the local identifier of [abc]. *)
Theorem scenario_without_video_id (env : option jsstring) :
  (exists c,
     submit_and_settle (ApiService.provider env) (js "abc")
       (fun _ => Responded 200 (Some body_without_video_id)) = Some c
     /\ status (state c) = SUCCESS
     /\ data (state c) = body_without_video_id
     /\ get "video_id" (data (state c)) = None
     /\ error (state c) = None)
  /\
  (exists c,
     submit_and_settle GeminiService.provider (js "abc")
       (fun _ => Generated (Some body_without_video_id)) = Some c
     /\ status (state c) = SUCCESS
     /\ videoId (js "abc") = js "unknown"
     /\ get "video_id" (data (state c)) = Some (JStr (js "unknown"))
     /\ error (state c) = None).
Proof.
  split; eexists; (split; [reflexivity |]); repeat split; reflexivity.
Qed.

(** C3, as stated, fails: in the scenario the [SUCCESS] state of the
    controller, which calls apiService, has no [video_id = abc]. *)
Lemma scenario_video_id_not_filled :
  exists c,
    submit_and_settle (ApiService.provider None) (js "abc")
      (fun _ => Responded 200 (Some body_without_video_id)) = Some c
    /\ extractVideoId (js "abc") = js "abc"
    /\ status (state c) = SUCCESS
    /\ get "video_id" (data (state c)) <> Some (JStr (js "abc")).
Proof.
  eexists. split; [reflexivity |]. split; [vm_compute; reflexivity |].
  split; [reflexivity | discriminate].
Qed.

End Controller.

(* ------------------------------------------------------------------ *)
(** ** White space around the input *)

Module Padding.

Import ApiService GeminiService.

(** No literal of the pattern is white space and no class contains any. *)
Fixpoint rejects_space (r : regex) : Prop :=
  match r with
  | Eps => True
  | Chr x => is_white_space x = false
  | Cls p => forall c, is_white_space c = true -> p c = false
  | Seq r1 r2 | Alt r1 r2 => rejects_space r1 /\ rejects_space r2
  | Opt r1 | Star _ r1 | Rep _ r1 | Group r1 => rejects_space r1
  end.

(** [k2] after the padding [w] is [k1] without it. *)
Definition padded (w s : jsstring) (k1 k2 : cont) : Prop :=
  forall s' c', (length s' <= length s)%nat -> k2 (s' ++ w) c' = k1 s' c'.

Lemma padded_shorter w s s1 k1 k2 :
  padded w s k1 k2 -> (length s1 <= length s)%nat -> padded w s1 k1 k2.
Proof. intros H L s' c' L'. apply H. lia. Qed.

Lemma progress_padded w s k1 k2 :
  padded w s k1 k2 -> padded w s (progress s k1) (progress (s ++ w) k2).
Proof.
  intros H s' c' L. unfold progress. rewrite !length_app.
  destruct (Nat.ltb_spec (length s') (length s)) as [Lt | Ge];
    destruct (Nat.ltb_spec (length s' + length w) (length s + length w));
    try lia; [apply H, L | reflexivity].
Qed.

Lemma consumed_padded w s s' :
  (length s' <= length s)%nat -> consumed (s ++ w) (s' ++ w) = consumed s s'.
Proof.
  intros L. unfold consumed. rewrite !length_app, firstn_app.
  replace (length s + length w - (length s' + length w))%nat
    with (length s - length s')%nat by lia.
  replace (length s - length s' - length s)%nat with 0%nat by lia.
  rewrite firstn_O. apply app_nil_r.
Qed.

Definition padding_at (r : regex) : Prop :=
  forall w, forallb is_white_space w = true ->
  forall s c k1 k2, padded w s k1 k2 -> m r (s ++ w) c k2 = m r s c k1.

Lemma star_loop_padding g r (IH : padding_at r) w k1 k2 n :
  forallb is_white_space w = true ->
  forall s c, padded w s k1 k2 ->
  star_loop (m r) k2 g n (s ++ w) c = star_loop (m r) k1 g n s c.
Proof.
  intros W. induction n as [| n IHn]; intros s c H; simpl.
  - apply H. lia.
  - rewrite (H s c) by lia.
    rewrite (IH w W s c (progress s (star_loop (m r) k1 g n))
                        (progress (s ++ w) (star_loop (m r) k2 g n)));
      [reflexivity |].
    intros s' c' L. unfold progress. rewrite !length_app.
    destruct (Nat.ltb_spec (length s') (length s)) as [Lt | Ge];
      destruct (Nat.ltb_spec (length s' + length w) (length s + length w));
      try lia; [| reflexivity].
    apply IHn. eapply padded_shorter; eauto.
Qed.

Lemma rep_loop_padding r (IH : padding_at r) w k1 k2 n :
  forallb is_white_space w = true ->
  forall s c, padded w s k1 k2 ->
  rep_loop (m r) k2 n (s ++ w) c = rep_loop (m r) k1 n s c.
Proof.
  intros W. induction n as [| n IHn]; intros s c H; simpl.
  - apply H. lia.
  - apply IH; [exact W |]. intros s' c' L. apply IHn.
    eapply padded_shorter; eauto.
Qed.

(** Run on an input followed by white space, the matcher explores the same
    paths with the same results: none of them can enter the padding. *)
Lemma m_padding r : rejects_space r -> padding_at r.
Proof.
  induction r as [| x | p | r1 IH1 r2 IH2 | r1 IH1 r2 IH2 | r1 IH1
                 | g r1 IH1 | n r1 IH1 | r1 IH1];
    simpl; intros R w W s c k1 k2 H.
  - apply H. lia.
  - destruct s as [| y s']; simpl.
    + destruct w as [| a w']; [reflexivity |].
      simpl in W. apply andb_true_iff in W. destruct W as [Wa _].
      destruct (N.eqb_spec a x) as [-> | _]; [congruence | reflexivity].
    + destruct (N.eqb y x); [apply H; simpl; lia | reflexivity].
  - destruct s as [| y s']; simpl.
    + destruct w as [| a w']; [reflexivity |].
      simpl in W. apply andb_true_iff in W. destruct W as [Wa _].
      rewrite (R a Wa). reflexivity.
    + destruct (p y); [apply H; simpl; lia | reflexivity].
  - destruct R as [R1 R2]. apply (IH1 R1 w W). intros s1 c1 L.
    apply (IH2 R2 w W). eapply padded_shorter; eauto.
  - destruct R as [R1 R2]. simpl.
    rewrite (IH1 R1 w W s c k1 k2 H), (IH2 R2 w W s c k1 k2 H). reflexivity.
  - simpl. rewrite (H s c) by lia.
    rewrite (IH1 R w W s c _ _ (progress_padded H)). reflexivity.
  - rewrite !m_Star.
    rewrite (@star_loop_padding g r1 (IH1 R) w k1 k2 (length (s ++ w)) W s c H).
    apply star_fuel; rewrite ?length_app; lia.
  - rewrite !m_Rep. apply rep_loop_padding; auto.
  - apply (IH1 R w W). intros s' c' L.
    rewrite consumed_padded by exact L. apply H, L.
Qed.

Lemma word_without_space r w c c' :
  Matches r w c c' -> rejects_space r -> existsb is_white_space w = false.
Proof.
  induction 1 as [ c | x c | p x c Hp
                 | r1 r2 w1 w2 c c1 c2 _ IH1 _ IH2
                 | r1 r2 w c c' _ IH | r1 r2 w c c' _ IH
                 | r c | r w c c' _ IH _
                 | g r c | g r w1 w2 c c1 c2 _ IH1 _ _ IH2
                 | r c | n r w1 w2 c c1 c2 _ IH1 _ IH2
                 | r w c c' _ IH ];
    simpl; intros R; rewrite ?existsb_app.
  - reflexivity.
  - rewrite R. reflexivity.
  - destruct (is_white_space x) eqn:W; [| reflexivity].
    rewrite (R x W) in Hp. discriminate.
  - destruct R as [R1 R2]. rewrite IH1, IH2; auto.
  - destruct R as [R1 R2]. auto.
  - destruct R as [R1 R2]. auto.
  - reflexivity.
  - auto.
  - reflexivity.
  - rewrite IH1, IH2; auto.
  - reflexivity.
  - rewrite IH1, IH2; auto.
  - auto.
Qed.

(** A pattern whose words are not empty and hold no white space. *)
Definition solid (r : regex) : Prop :=
  rejects_space r /\ always_has non_id r = true.

Lemma solid_word r w c c' :
  solid r -> Matches r w c c' ->
  exists a w', w = a :: w' /\ is_white_space a = false.
Proof.
  intros [R A] M.
  pose proof (word_without_space M R) as Sp.
  pose proof (always_has_sound non_id M A) as Ne.
  destruct w as [| a w']; [discriminate |].
  exists a, w'. simpl in Sp. apply orb_false_iff in Sp. tauto.
Qed.

Lemma m_at_space r a s c k :
  solid r -> is_white_space a = true -> m r (a :: s) c k = None.
Proof.
  intros S W. destruct (m r (a :: s) c k) as [res |] eqn:E; [| reflexivity].
  apply m_sound in E. destruct E as (w & s' & c' & Hs & M & _).
  destruct (solid_word S M) as (b & w' & -> & Wb).
  simpl in Hs. injection Hs as <- _. congruence.
Qed.

Lemma m_at_end r c k : solid r -> m r [] c k = None.
Proof.
  intros S. destruct (m r [] c k) as [res |] eqn:E; [| reflexivity].
  apply m_sound in E. destruct E as (w & s' & c' & Hs & M & _).
  destruct (solid_word S M) as (b & w' & -> & _). discriminate.
Qed.

Lemma exec_leading r l s :
  solid r -> forallb is_white_space l = true -> exec r (l ++ s) = exec r s.
Proof.
  intros S. induction l as [| a l IH]; simpl; [reflexivity |].
  intros W. apply andb_true_iff in W. destruct W as [Wa Wl].
  rewrite (@m_at_space r a (l ++ s) None (fun _ c => Some c) S Wa). auto.
Qed.

Lemma exec_space_only r w :
  solid r -> forallb is_white_space w = true -> exec r w = None.
Proof.
  intros S W. rewrite <- (app_nil_r w), (@exec_leading r w [] S W). simpl.
  rewrite (@m_at_end r None (fun _ c => Some c) S). reflexivity.
Qed.

Lemma exec_trailing r s w :
  solid r -> forallb is_white_space w = true -> exec r (s ++ w) = exec r s.
Proof.
  intros S W. induction s as [| a s IH].
  - simpl app. rewrite (@exec_space_only r w S W). simpl.
    rewrite (@m_at_end r None (fun _ c => Some c) S). reflexivity.
  - change ((a :: s) ++ w) with (a :: (s ++ w)). simpl exec.
    change (a :: (s ++ w)) with ((a :: s) ++ w).
    rewrite (@m_padding r (proj1 S) w W (a :: s) None
               (fun _ c => Some c) (fun _ c => Some c))
      by (intros s' c' _; reflexivity).
    rewrite IH. reflexivity.
Qed.

Lemma exec_trim r x : solid r -> js_match (trim x) r = js_match x r.
Proof.
  intros S. unfold js_match.
  destruct (trim_split x) as (l & t & E & Wl & Wt).
  rewrite E at 2.
  rewrite (@exec_leading r l (trim x ++ t) S Wl), (@exec_trailing r (trim x) t S Wt).
  reflexivity.
Qed.

Lemma white_space_not_id c : is_white_space c = true -> id_char c = false.
Proof.
  intros W. destruct (id_char c) eqn:I; [| reflexivity].
  rewrite (id_char_not_space c I) in W. discriminate.
Qed.

Lemma white_space_not_query_sep c :
  is_white_space c = true -> query_sep c = false.
Proof.
  intros W. apply not_true_is_false. intros Q.
  unfold is_white_space, query_sep, ch, unit_of_ascii in *. simpl in Q.
  to_prop; subst; lia.
Qed.

Lemma classes_reject_space c :
  is_white_space c = true ->
  id_char c = false /\ non_space c = false /\ not_slash_space c = false
  /\ query_sep c = false.
Proof.
  intros W. unfold non_space, not_slash_space. rewrite W, !orb_true_r.
  auto using white_space_not_id, white_space_not_query_sep.
Qed.

Lemma api_pattern_solid : solid api_pattern.
Proof.
  split; [| reflexivity].
  simpl; repeat split; try reflexivity; intros c W;
    apply (classes_reject_space c W).
Qed.

Lemma gemini_pattern_solid : solid gemini_pattern.
Proof.
  split; [| reflexivity].
  simpl; repeat split; try reflexivity; intros c W;
    apply (classes_reject_space c W).
Qed.

(** White space before and after the input makes no difference to either
    service: trimming first gives the same identifier. *)
Theorem padding_ignored (x : jsstring) :
  extractVideoId (trim x) = extractVideoId x
  /\ videoId (trim x) = videoId x.
Proof.
  unfold extractVideoId, videoId.
  rewrite !exec_trim by auto using api_pattern_solid, gemini_pattern_solid.
  rewrite trim_idem. split; reflexivity.
Qed.

End Padding.

(* ------------------------------------------------------------------ *)
(** ** What the identifier can be *)

Module Identifiers.

Import ApiService GeminiService.

(** The paths the apiService pattern accepts without any host in front:
    its second alternative. *)
Definition hostless_tails : list jsstring :=
  [js "v/"; js "e/"; js "embed/"; js "watch/"; js "watch?v="].

Definition dot (c : code_unit) : bool := N.eqb c (ch ".").

Lemma blank_is_space x :
  trim x = [] -> forallb is_white_space x = true.
Proof.
  intros T. destruct (trim_split x) as (l & r & E & Wl & Wr).
  rewrite E, T, !forallb_app, Wl, Wr. reflexivity.
Qed.

Lemma space_is_blank x :
  forallb is_white_space x = true -> trim x = [].
Proof.
  intros W. unfold trim.
  assert (T : trimStart x = []).
  { induction x as [| a x IH]; simpl in *; [reflexivity |].
    apply andb_true_iff in W. destruct W as [-> Wx]. auto. }
  rewrite T. reflexivity.
Qed.

Lemma separated_after_identifier w t :
  forallb id_char w = true -> separated (w ++ t) = separated t.
Proof.
  induction w as [| a w IH]; simpl; [reflexivity |].
  intros H. apply andb_true_iff in H. destruct H as [-> Hw]. simpl. auto.
Qed.

Lemma ends_with_suffix r u p :
  ends_with r p = true -> ends_with r (u ++ p) = true.
Proof.
  intros H. induction u as [| a u IH]; simpl; [exact H |].
  destruct (m r (a :: u ++ p) None at_end); [reflexivity | exact IH].
Qed.

Lemma id_char_not_dot c : id_char c = true -> dot c = false.
Proof.
  intros H. apply not_true_is_false. intros W.
  unfold id_char, dot, ch, unit_of_ascii in *. simpl in H, W.
  to_prop; subst; lia.
Qed.

Lemma hostless_tails_checked :
  forallb (fun t => separated t && ends_with api_prefix t
                    && negb (existsb dot t)) hostless_tails = true.
Proof. vm_compute. reflexivity. Qed.

(** [extractVideoId] never makes up text: what it returns stands in the
    input as it is. *)
Theorem extractVideoId_is_substring (x : jsstring) :
  exists l r, x = l ++ extractVideoId x ++ r.
Proof.
  destruct (js_match x api_pattern) as [mt |] eqn:E.
  - destruct (Normalisation.extractVideoId_shape x)
      as (u & p & id & v & Ex & _ & _ & _ & ->); [congruence |].
    exists (u ++ p), v. rewrite <- app_assoc. exact Ex.
  - unfold extractVideoId. rewrite E.
    destruct (trim_split x) as (l & r & Ex & _). eauto.
Qed.

(** What [extractVideoId] returns has no white space at either end, and it
    is empty exactly when the input is blank. *)
Theorem extractVideoId_clean (x : jsstring) :
  trim (extractVideoId x) = extractVideoId x
  /\ (extractVideoId x = [] <-> forallb is_white_space x = true).
Proof.
  destruct (js_match x api_pattern) as [mt |] eqn:E.
  - destruct (Normalisation.extractVideoId_shape x)
      as (u & p & id & v & Ex & _ & L & F & Eid); [congruence |].
    rewrite Eid. split; [apply trim_identifier, F |].
    split.
    + intros ->. discriminate.
    + intros W. exfalso.
      unfold js_match in E.
      rewrite (@Padding.exec_space_only api_pattern x
                 Padding.api_pattern_solid W) in E.
      discriminate.
  - unfold extractVideoId. rewrite E. split; [apply trim_idem |].
    split; [apply blank_is_space | apply space_is_blank].
Qed.

(** The [videoId] of the Gemini service is made of [[a-zA-Z0-9_-]] only:
    either the literal [unknown], or 11 characters that stand in the
    input. *)
Theorem videoId_is_identifier (x : jsstring) :
  forallb id_char (videoId x) = true
  /\ (videoId x = js "unknown"
      \/ (length (videoId x) = 11%nat
          /\ exists l r, x = l ++ videoId x ++ r)).
Proof.
  destruct (js_match x gemini_pattern) as [mt |] eqn:E.
  - destruct (Normalisation.videoId_shape x)
      as (u & p & id & v & Ex & _ & L & F & ->); [congruence |].
    split; [exact F |]. right. split; [exact L |].
    exists (u ++ p), v. rewrite <- app_assoc. exact Ex.
  - unfold videoId. rewrite E. split; [reflexivity | left; reflexivity].
Qed.

(** Any text before the identifier will do, as long as it ends in a word of
    both URL prefixes and no other place in it could start an identifier:
    both services then return the identifier. *)
Theorem identifier_after_prefix (pre id : jsstring) :
  comparable pre = true ->
  length id = 11%nat -> forallb id_char id = true ->
  extractVideoId (pre ++ id) = id /\ videoId (pre ++ id) = id.
Proof.
  intros C L F.
  destruct (comparable_extracts pre id C L F) as [Ea Eg].
  unfold extractVideoId, videoId. rewrite Ea, Eg. split; reflexivity.
Qed.

Lemma identifier_after_prefix_witness :
  extractVideoId (js "https://m.youtube.com/watch?v=" ++ js "9bZkp7q19f0")
  = js "9bZkp7q19f0"
  /\ videoId (js "https://m.youtube.com/watch?v=" ++ js "9bZkp7q19f0")
     = js "9bZkp7q19f0".
Proof.
  apply (@identifier_after_prefix
           (js "https://m.youtube.com/watch?v=") (js "9bZkp7q19f0"));
    vm_compute; reflexivity.
Defined.

(** The apiService pattern asks for no host.  A word of identifier
    characters followed by [v/], [e/], [embed/], [watch/] or [watch?v=] and
    11 identifier characters is read as a video URL by [extractVideoId],
    which returns those 11 characters; the Gemini service finds no URL in
    it. *)
Theorem hostless_path_accepted (w tail id : jsstring) :
  forallb id_char w = true ->
  In tail hostless_tails ->
  length id = 11%nat -> forallb id_char id = true ->
  extractVideoId (w ++ tail ++ id) = id
  /\ videoId (w ++ tail ++ id) = js "unknown".
Proof.
  intros Fw I L F.
  pose proof hostless_tails_checked as C. rewrite forallb_forall in C.
  specialize (C tail I).
  apply andb_true_iff in C. destruct C as [C D].
  apply andb_true_iff in C. destruct C as [S W].
  apply negb_true_iff in D.
  split.
  - unfold extractVideoId, api_pattern. rewrite app_assoc.
    rewrite exec_canonical; auto.
    + rewrite separated_after_identifier; assumption.
    + apply ends_with_suffix, W.
  - unfold videoId. unfold js_match.
    rewrite (@exec_needs dot gemini_pattern (w ++ tail ++ id)); auto.
    rewrite !existsb_app, D.
    rewrite (existsb_none dot id_char w id_char_not_dot Fw).
    rewrite (existsb_none dot id_char id id_char_not_dot F).
    reflexivity.
Qed.

Lemma hostless_path_accepted_witness :
  extractVideoId (js "movi" ++ js "e/" ++ js "transformer") = js "transformer"
  /\ videoId (js "movi" ++ js "e/" ++ js "transformer") = js "unknown".
Proof.
  apply (@hostless_path_accepted (js "movi") (js "e/") (js "transformer")).
  - reflexivity.
  - vm_compute. tauto.
  - reflexivity.
  - vm_compute. reflexivity.
Defined.

(** apiService sends the same request, and so gives the same result, for a
    URL and for the bare identifier in it, with white space around or not:
    the resource asked for is [/analyse/] followed by the identifier. *)
Theorem same_request_for_url_and_identifier
    (env : option jsstring) (fetch : jsstring -> fetch_outcome)
    (l pre id r : jsstring) :
  forallb is_white_space l = true -> forallb is_white_space r = true ->
  comparable pre = true ->
  length id = 11%nat -> forallb id_char id = true ->
  request_url env (extractVideoId (l ++ (pre ++ id) ++ r))
  = BACKEND_URL env ++ js "/analyse/" ++ id
  /\ ApiService.analyzeVideoSentiment env fetch (l ++ (pre ++ id) ++ r)
     = ApiService.analyzeVideoSentiment env fetch id.
Proof.
  intros Wl Wr C L F.
  assert (E : extractVideoId (l ++ (pre ++ id) ++ r) = id).
  { unfold extractVideoId, js_match.
    rewrite (@Padding.exec_leading api_pattern l ((pre ++ id) ++ r)
               Padding.api_pattern_solid Wl).
    rewrite (@Padding.exec_trailing api_pattern (pre ++ id) r
               Padding.api_pattern_solid Wr).
    destruct (comparable_extracts pre id C L F) as [Ea _].
    unfold js_match in Ea. rewrite Ea. reflexivity. }
  unfold ApiService.analyzeVideoSentiment.
  rewrite E, (Normalisation.extractVideoId_of_identifier id F).
  split; reflexivity.
Qed.

Lemma same_request_for_url_and_identifier_witness :
  request_url None
    (extractVideoId (js " " ++ (js "https://youtu.be/" ++ js "Ks-_Mh1QhMc")
                     ++ js " "))
  = BACKEND_URL None ++ js "/analyse/" ++ js "Ks-_Mh1QhMc"
  /\ ApiService.analyzeVideoSentiment None (fun _ => NetworkFailure)
       (js " " ++ (js "https://youtu.be/" ++ js "Ks-_Mh1QhMc") ++ js " ")
     = ApiService.analyzeVideoSentiment None (fun _ => NetworkFailure)
         (js "Ks-_Mh1QhMc").
Proof.
  apply (@same_request_for_url_and_identifier None (fun _ => NetworkFailure)
           (js " ") (js "https://youtu.be/") (js "Ks-_Mh1QhMc") (js " "));
    vm_compute; reflexivity.
Defined.

End Identifiers.

(* ------------------------------------------------------------------ *)
(** ** Identifiers that run on *)

Module Truncation.

Import ApiService GeminiService.

(** Every word of [r] is empty. *)
Fixpoint only_eps (r : regex) : bool :=
  match r with
  | Eps => true
  | Chr _ | Cls _ => false
  | Seq r1 r2 | Alt r1 r2 => only_eps r1 && only_eps r2
  | Opt r1 | Star _ r1 | Group r1 => only_eps r1
  | Rep n r1 => match n with O => true | S _ => only_eps r1 end
  end.

(** Every word of [r] ends in a character outside [[a-zA-Z0-9_-]]. *)
Fixpoint ends_non_id (r : regex) : bool :=
  match r with
  | Chr x => non_id x
  | Seq r1 r2 => ends_non_id r2 || (only_eps r2 && ends_non_id r1)
  | Alt r1 r2 => ends_non_id r1 && ends_non_id r2
  | Group r1 => ends_non_id r1
  | Eps | Cls _ | Opt _ | Star _ _ | Rep _ _ => false
  end.

(** Every character of every word of [r] satisfies [q]. *)
Fixpoint only_chars (q : code_unit -> bool) (r : regex) : bool :=
  match r with
  | Eps => true
  | Chr x => q x
  | Cls _ => false
  | Seq r1 r2 | Alt r1 r2 => only_chars q r1 && only_chars q r2
  | Opt r1 | Star _ r1 | Rep _ r1 | Group r1 => only_chars q r1
  end.

(** The first alternative of the apiService pattern without its last part,
    [(?:v|e(?:mbed)?)]: [youtube\.com\/[^\/\n\s]+\/\S+\/] after the optional
    scheme and [www.]. *)
Definition api_head : regex :=
  Seq scheme
 (Seq www
     (Seq (Lit (js "youtube.com/"))
     (Seq (Plus (Cls not_slash_space))
     (Seq (Chr (ch "/"))
     (Seq (Plus (Cls non_space))
          (Chr (ch "/"))))))).

(** The apiService pattern without its first alternative. *)
Definition api_rest : regex :=
  Seq scheme
 (Seq www
     (Alt (Seq (Alt (Chr (ch "v"))
               (Alt (Seq (Chr (ch "e")) (Opt (Lit (js "mbed"))))
                    (Lit (js "watch"))))
               (Alt (Lit (js "?v=")) (Chr (ch "/"))))
          (Lit (js "youtu.be/")))).

(** The text before the identifier fits both services, and no word of
    [api_head] ends where it ends. *)
Definition cuttable (pre : jsstring) : bool :=
  comparable pre && negb (ends_with api_head pre).

Lemma only_eps_sound r w c c' :
  Matches r w c c' -> only_eps r = true -> w = [].
Proof.
  induction 1; simpl; intros E; try discriminate; try reflexivity;
    try (apply andb_true_iff in E; destruct E as [E1 E2]); auto.
  - rewrite IHMatches1, IHMatches2; auto.
  - rewrite IHMatches1, IHMatches2; auto.
  - rewrite IHMatches1, IHMatches2; auto.
    destruct n; [reflexivity | exact E].
Qed.

Lemma ends_non_id_sound r w c c' :
  Matches r w c c' -> ends_non_id r = true ->
  exists w' x, w = w' ++ [x] /\ non_id x = true.
Proof.
  induction 1; simpl; intros E; try discriminate.
  - exists [], x. auto.
  - apply orb_true_iff in E. destruct E as [E | E].
    + destruct (IHMatches2 E) as (w' & x & -> & Hx).
      exists (w1 ++ w'), x. rewrite app_assoc. auto.
    + apply andb_true_iff in E. destruct E as [E1 E2].
      rewrite (only_eps_sound H0 E1), app_nil_r. auto.
  - apply andb_true_iff in E. destruct E as [E1 E2]. auto.
  - apply andb_true_iff in E. destruct E as [E1 E2]. auto.
  - auto.
Qed.

Lemma only_chars_sound q r w c c' :
  Matches r w c c' -> only_chars q r = true -> forallb q w = true.
Proof.
  induction 1; simpl; intros E; rewrite ?forallb_app; try discriminate;
    try reflexivity;
    try (apply andb_true_iff in E; destruct E as [E1 E2]); auto.
  - rewrite E. reflexivity.
  - rewrite IHMatches1, IHMatches2; auto.
  - rewrite IHMatches1, IHMatches2; auto.
  - rewrite IHMatches1, IHMatches2; auto.
Qed.

Lemma ends_with_complete r u p c' :
  Matches r p None c' -> ends_with r (u ++ p) = true.
Proof.
  intros M. apply Identifiers.ends_with_suffix.
  assert (H : m r (p ++ []) None at_end <> None)
    by (eapply m_complete; eauto; discriminate).
  rewrite app_nil_r in H.
  destruct p; simpl; destruct (m r _ None at_end); congruence.
Qed.

(** A word of the apiService prefix is a word of [api_rest], or a word of
    [api_head] followed by [v], [e] or [embed]. *)
Lemma api_prefix_split p c c' :
  Matches api_prefix p c c' ->
  Matches api_rest p c c'
  \/ exists h t ch, p = h ++ t /\ Matches api_head h c ch
                    /\ Matches v_or_embed t ch c'.
Proof.
  unfold api_prefix, api_rest, api_head. intros M.
  inversion M as [ | | | ? ? s1 q1 ? c1 ? Ms M1 | | | | | | | | | ]; subst.
  inversion M1 as [ | | | ? ? s2 q2 ? c2 ? Mw M2 | | | | | | | | | ]; subst.
  inversion M2 as [ | | | | ? ? ? ? ? Ma | ? ? ? ? ? Mb | | | | | | | ]; subst.
  - right.
    inversion Ma as [ | | | ? ? a1 b1 ? d1 ? Mlit N1 | | | | | | | | | ]; subst.
    inversion N1 as [ | | | ? ? a2 b2 ? d2 ? Mx N2 | | | | | | | | | ]; subst.
    inversion N2 as [ | | | ? ? a3 b3 ? d3 ? Msl N3 | | | | | | | | | ]; subst.
    inversion N3 as [ | | | ? ? a4 b4 ? d4 ? Mns N4 | | | | | | | | | ]; subst.
    inversion N4 as [ | | | ? ? a5 b5 ? d5 ? Msl2 Mve | | | | | | | | | ]; subst.
    exists (s1 ++ s2 ++ a1 ++ a2 ++ a3 ++ a4 ++ a5), b5, d5.
    split; [rewrite <- !app_assoc; reflexivity |].
    split; [| exact Mve].
    eauto 10 with regex.
  - left. eauto with regex.
Qed.

Lemma last_split (A : Type) (w1 w2 : list A) (x y : A) (t : list A)
    (q : A -> bool) :
  w1 ++ [x] = w2 ++ y :: t -> q x = false -> q y = false ->
  forallb q t = true -> t = [].
Proof.
  intros E Hx Hy Ht. destruct t as [| z t]; [reflexivity |]. exfalso.
  assert (L : last (w1 ++ [x]) x = x) by apply last_last.
  rewrite E in L.
  assert (I : In (last (w2 ++ y :: z :: t) x) (z :: t)).
  { clear. induction w2 as [| b w2 IH]; simpl.
    - change (In (last (z :: t) x) (z :: t)).
      revert z. induction t as [| z' t IHt]; intros z; simpl; [auto |].
      right. apply IHt.
    - destruct (w2 ++ y :: z :: t) eqn:Ew; [destruct w2; discriminate |].
      exact IH. }
  rewrite L in I. rewrite forallb_forall in Ht.
  rewrite (Ht x I) in Hx. discriminate.
Qed.

(** In [pre ++ tail], [tail] made of identifier characters, 11 identifier
    characters that follow a word with a character outside the alphabet
    lie in [tail], and the word ends in [pre] at that character. *)
Lemma candidate_in_tail pre tail u p id' v :
  separated pre = true -> forallb id_char tail = true ->
  pre ++ tail = u ++ p ++ id' ++ v ->
  existsb non_id p = true ->
  length id' = 11%nat -> forallb id_char id' = true ->
  exists p' c t, p = p' ++ c :: t /\ non_id c = true
                 /\ forallb id_char t = true
                 /\ pre = u ++ p' ++ [c] /\ tail = t ++ id' ++ v.
Proof.
  intros S F E Hp L' F'.
  destruct (last_non_id p Hp) as (p' & c & t & -> & Hc & Ht).
  exists p', c, t. repeat split; auto.
  - replace (u ++ (p' ++ c :: t) ++ id' ++ v)
      with ((u ++ p') ++ c :: (t ++ id' ++ v)) in E
      by (rewrite <- !app_assoc; reflexivity).
    apply app_eq_app in E. destruct E as (l & [[E1 E2] | [E1 E2]]).
    + destruct l as [| c0 l].
      * simpl in E2. rewrite <- E2 in F.
        assert (non_id c = false)
          by (eapply id_char_in; [exact F | left; reflexivity]).
        congruence.
      * simpl in E2. injection E2 as <- E2.
        destruct l as [| c1 l].
        { rewrite E1, <- app_assoc. reflexivity. }
        exfalso.
        assert (X : existsb non_id (firstn 11 (c1 :: l)) = true)
          by (eapply separated_split; eauto; discriminate).
        apply (existsb_firstn_app _ _ _ tail) in X. rewrite <- E2 in X.
        rewrite app_assoc, firstn_app in X.
        replace (11 - length (t ++ id'))%nat with 0%nat in X
          by (rewrite length_app; lia).
        rewrite firstn_O, app_nil_r in X.
        eapply (all_and_some id_char); [| exact X].
        apply forallb_firstn. rewrite forallb_app, Ht, F'. reflexivity.
    + rewrite E2 in F.
      assert (non_id c = false).
      { eapply id_char_in; [exact F |]. apply in_or_app. right. left.
        reflexivity. }
      congruence.
  - replace (u ++ (p' ++ c :: t) ++ id' ++ v)
      with ((u ++ p') ++ c :: (t ++ id' ++ v)) in E
      by (rewrite <- !app_assoc; reflexivity).
    apply app_eq_app in E. destruct E as (l & [[E1 E2] | [E1 E2]]).
    + destruct l as [| c0 l].
      * simpl in E2. rewrite <- E2 in F.
        assert (non_id c = false)
          by (eapply id_char_in; [exact F | left; reflexivity]).
        congruence.
      * simpl in E2. injection E2 as <- E2.
        destruct l as [| c1 l]; [simpl in E2; congruence |].
        exfalso.
        assert (X : existsb non_id (firstn 11 (c1 :: l)) = true)
          by (eapply separated_split; eauto; discriminate).
        apply (existsb_firstn_app _ _ _ tail) in X. rewrite <- E2 in X.
        rewrite app_assoc, firstn_app in X.
        replace (11 - length (t ++ id'))%nat with 0%nat in X
          by (rewrite length_app; lia).
        rewrite firstn_O, app_nil_r in X.
        eapply (all_and_some id_char); [| exact X].
        apply forallb_firstn. rewrite forallb_app, Ht, F'. reflexivity.
    + rewrite E2 in F.
      assert (non_id c = false).
      { eapply id_char_in; [exact F |]. apply in_or_app. right. left.
        reflexivity. }
      congruence.
Qed.

Lemma last_non_id_unique (p1 p2 t1 t2 : jsstring) (c1 c2 : code_unit) :
  p1 ++ c1 :: t1 = p2 ++ c2 :: t2 ->
  non_id c1 = true -> non_id c2 = true ->
  forallb id_char t1 = true -> forallb id_char t2 = true ->
  p1 = p2 /\ t1 = t2.
Proof.
  revert p2. induction p1 as [| a p1 IH]; intros [| b p2] E N1 N2 F1 F2;
    simpl in E; injection E as E0 E.
  - auto.
  - exfalso. subst.
    assert (non_id c2 = false).
    { eapply id_char_in; [exact F1 |]. apply in_or_app. right. left.
      reflexivity. }
    congruence.
  - exfalso. subst.
    assert (non_id c1 = false).
    { eapply id_char_in; [exact F2 |]. apply in_or_app. right. left.
      reflexivity. }
    congruence.
  - subst. destruct (IH p2 E N1 N2 F1 F2) as [-> ->]. auto.
Qed.

Lemma firstn_exact (id v : jsstring) n :
  length id = n -> firstn n (id ++ v) = id.
Proof.
  intros <-. rewrite firstn_app, Nat.sub_diag, firstn_O, app_nil_r.
  apply firstn_all.
Qed.

Lemma exec_truncates pre_r pre tail :
  has_group pre_r = false ->
  always_has non_id pre_r = true ->
  separated pre = true -> ends_with pre_r pre = true ->
  (forall u p' c t,
      Matches pre_r (p' ++ c :: t) None None -> non_id c = true ->
      forallb id_char t = true -> pre = u ++ p' ++ [c] -> t = []) ->
  forallb id_char tail = true -> (11 <= length tail)%nat ->
  js_match (pre ++ tail) (Seq pre_r id_group) = Some (Some (firstn 11 tail)).
Proof.
  intros G A S W Ends F L.
  destruct (ends_with_sound _ _ W) as (u0 & p0 & c0 & E0 & M0).
  pose proof (no_group_capture M0 G). subst c0.
  destruct (js_match (pre ++ tail) (Seq pre_r id_group)) as [mt |] eqn:E.
  - apply match_inv in E; [| assumption].
    destruct E as (u & p & id' & v & E & M & L' & F' & ->).
    destruct (candidate_in_tail pre tail u p id' v S F E
                (always_has_sound non_id M A) L' F')
      as (p' & c & t & -> & Hc & Ht & Epre & Etail).
    rewrite (Ends u p' c t M Hc Ht Epre) in Etail. simpl in Etail.
    rewrite Etail, (firstn_exact id' v L'). reflexivity.
  - exfalso. revert E. unfold js_match.
    replace (pre ++ tail)
      with (u0 ++ (p0 ++ firstn 11 tail) ++ skipn 11 tail)
      by (rewrite <- app_assoc, firstn_skipn, app_assoc, <- E0; reflexivity).
    eapply exec_complete. eapply MSeq; [exact M0 |].
    apply id_group_intro.
    + rewrite length_firstn. lia.
    + apply forallb_firstn, F.
Qed.

Lemma gemini_word_ends_in_prefix pre u p' c t :
  Matches gemini_prefix (p' ++ c :: t) None None -> non_id c = true ->
  forallb id_char t = true -> pre = u ++ p' ++ [c] -> t = [].
Proof.
  intros M Hc Ht _.
  destruct (ends_non_id_sound M) as (w' & x & E & Hx); [reflexivity |].
  symmetry in E. unfold non_id in *.
  apply (last_split w' p' x c t id_char E);
    [apply negb_true_iff, Hx | apply negb_true_iff, Hc | exact Ht].
Qed.

Lemma api_word_ends_in_prefix pre u p' c t :
  ends_with api_head pre = false ->
  Matches api_prefix (p' ++ c :: t) None None -> non_id c = true ->
  forallb id_char t = true -> pre = u ++ p' ++ [c] -> t = [].
Proof.
  intros NoHead M Hc Ht Epre.
  destruct (api_prefix_split M) as [Mr | (h & t0 & c0 & E & Mh & Mt)].
  - destruct (ends_non_id_sound Mr) as (w' & x & E & Hx); [reflexivity |].
    symmetry in E. unfold non_id in *.
    apply (last_split w' p' x c t id_char E);
      [apply negb_true_iff, Hx | apply negb_true_iff, Hc | exact Ht].
  - exfalso.
    destruct (ends_non_id_sound Mh) as (h' & x & -> & Hx); [reflexivity |].
    pose proof (only_chars_sound id_char Mt) as Ft0.
    rewrite <- app_assoc in E. simpl in E.
    destruct (last_non_id_unique p' h' t t0 c x E Hc Hx Ht (Ft0 eq_refl))
      as [-> ->].
    assert (c = x).
    { apply app_inv_head in E. injection E as ->. reflexivity. }
    subst c.
    rewrite Epre in NoHead.
    rewrite (@ends_with_complete api_head u (h' ++ [x]) c0 Mh) in NoHead.
    discriminate.
Qed.

Lemma canonical_cuttable : forallb cuttable canonical_prefixes = true.
Proof. vm_compute. reflexivity. Qed.

(** An identifier that runs on is cut: after a URL prefix that fits (every
    canonical prefix does, see [canonical_cuttable]), 11 or more identifier
    characters are read as their first 11 by both services. *)
Theorem long_identifier_cut (pre tail : jsstring) :
  cuttable pre = true ->
  forallb id_char tail = true -> (11 <= length tail)%nat ->
  extractVideoId (pre ++ tail) = firstn 11 tail
  /\ videoId (pre ++ tail) = firstn 11 tail.
Proof.
  intros C F L. unfold cuttable in C.
  apply andb_true_iff in C. destruct C as [C H].
  apply negb_true_iff in H. unfold comparable in C.
  apply andb_true_iff in C. destruct C as [C W2].
  apply andb_true_iff in C. destruct C as [S W1].
  unfold extractVideoId, videoId, api_pattern, gemini_pattern. split.
  - rewrite (@exec_truncates api_prefix pre tail); auto.
    intros u p' c t. apply api_word_ends_in_prefix, H.
  - rewrite (@exec_truncates gemini_prefix pre tail); auto.
    intros u p' c t. apply gemini_word_ends_in_prefix.
Qed.

Lemma long_identifier_cut_witness :
  extractVideoId (js "https://youtu.be/" ++ js "Ks-_Mh1QhMcXYZ")
  = firstn 11 (js "Ks-_Mh1QhMcXYZ")
  /\ videoId (js "https://youtu.be/" ++ js "Ks-_Mh1QhMcXYZ")
     = firstn 11 (js "Ks-_Mh1QhMcXYZ").
Proof.
  apply (@long_identifier_cut (js "https://youtu.be/") (js "Ks-_Mh1QhMcXYZ")).
  - vm_compute. reflexivity.
  - vm_compute. reflexivity.
  - vm_compute. lia.
Defined.

End Truncation.

(* ------------------------------------------------------------------ *)
(** ** Video URLs: the identifier of a canonical URL, with text around it *)

Module VideoUrls.

Import ApiService GeminiService Truncation.














(** *** Text without marks *)





(** *** An [m/] with two more [/] after it *)






(** *** Where a mark can stand *)










(** *** The URL shapes of the specification *)







End VideoUrls.

(* ------------------------------------------------------------------ *)
(** ** What the Gemini service returns *)

Module GeminiResult.

Import GeminiService.

(** The fields of [SentimentData] other than [video_id], as read from an
    object. *)
Definition other_fields_fit (o : object) : bool :=
  is_number (lookup "score" o)
  && is_string (lookup "label" o)
  && is_SentimentComponents (lookup "components" o)
  && is_number (lookup "model_accuracy" o).

(** The override touches [video_id] only: every other field of the object
    the model answered with is in the result as it was. *)
Theorem other_fields_kept
    (generateContent : jsstring -> generate_outcome)
    (videoUrl : jsstring) (o : object) (k : string) :
  generateContent (contents videoUrl) = Generated (Some (JObj o)) ->
  k <> "video_id"%string ->
  exists result,
    analyzeVideoSentiment generateContent videoUrl = Fulfilled result
    /\ get k result = get k (JObj o).
Proof.
  intros G K. unfold analyzeVideoSentiment. rewrite G.
  eexists. split; [reflexivity |]. simpl. apply lookup_assign_other, K.
Qed.

Lemma other_fields_kept_witness :
  exists result,
    analyzeVideoSentiment
      (fun _ => Generated (Some (Controller.body_with_video_id (js "XYZ123"))))
      (js "https://youtu.be/Ks-_Mh1QhMc") = Fulfilled result
    /\ get "label" result
       = get "label" (Controller.body_with_video_id (js "XYZ123")).
Proof.
  apply (@other_fields_kept
           (fun _ => Generated (Some (Controller.body_with_video_id (js "XYZ123"))))
           (js "https://youtu.be/Ks-_Mh1QhMc") _ "label" eq_refl).
  discriminate.
Defined.

(** The result fits [SentimentData] exactly when the four other fields of
    the answer do: a missing or ill-typed [video_id] in the answer is made
    good by the override. *)
Theorem result_fits_SentimentData
    (generateContent : jsstring -> generate_outcome)
    (videoUrl : jsstring) (o : object) :
  generateContent (contents videoUrl) = Generated (Some (JObj o)) ->
  exists result,
    analyzeVideoSentiment generateContent videoUrl = Fulfilled result
    /\ is_SentimentData result = other_fields_fit o.
Proof.
  intros G. unfold analyzeVideoSentiment. rewrite G.
  eexists. split; [reflexivity |].
  unfold is_SentimentData, other_fields_fit. simpl.
  rewrite lookup_assign.
  rewrite !lookup_assign_other by discriminate. reflexivity.
Qed.

Lemma result_fits_SentimentData_witness :
  exists result,
    analyzeVideoSentiment
      (fun _ => Generated (Some Controller.body_without_video_id))
      (js "https://youtu.be/Ks-_Mh1QhMc") = Fulfilled result
    /\ is_SentimentData result = true.
Proof.
  exact (@result_fits_SentimentData
           (fun _ => Generated (Some Controller.body_without_video_id))
           (js "https://youtu.be/Ks-_Mh1QhMc") _ eq_refl).
Defined.

End GeminiResult.

(* ------------------------------------------------------------------ *)
(** ** The life of the component *)

Module Lifecycle.

Import ApiService Controller.

(** What status, data, error and console have to do with each other. *)
Definition coherent (c : Config) : Prop :=
  match status (state c) with
  | IDLE =>
      data (state c) = JNull /\ error (state c) = None /\ console c = []
  | LOADING =>
      data (state c) = JNull /\ error (state c) = None
  | SUCCESS =>
      error (state c) = None
  | ERROR =>
      data (state c) = JNull /\ error (state c) = Some failure_message
      /\ console c <> []
  end.

Lemma last_cons (A : Type) (vs : list A) : forall v d,
  last (v :: vs) d = last vs v.
Proof.
  induction vs as [| j vs IH]; intros v d; [reflexivity |].
  change (last (v :: j :: vs) d) with (last (j :: vs) d).
  rewrite (IH j d), (IH j v). reflexivity.
Qed.

Section AnyProvider.
Variable P : AnalysisProvider.

Lemma coherent_step e c c' :
  single_flight c -> coherent c -> dispatch P e c = Some c' -> coherent c'.
Proof.
  intros I C D. destruct e as [v | | i w]; simpl in D.
  - injection D as <-. exact C.
  - destruct (button_disabled (state c)); [discriminate |].
    injection D as <-. unfold handleSubmit.
    destruct (trim (url (state c))); simpl; [exact C |].
    unfold coherent. simpl. auto.
  - destruct (nth_error (pending c) i) as [arg |] eqn:N; [| discriminate].
    injection D as <-.
    destruct I as [[L _] | [_ E]].
    + unfold coherent in C. rewrite L in C. destruct C as [Cd Ce].
      destruct (analyze P w arg); unfold coherent; simpl; auto.
      repeat split; auto. destruct (console c); discriminate.
    + rewrite E in N. destruct i; discriminate.
Qed.

Lemma reachable_invariant es : forall c c',
  single_flight c -> coherent c -> run P es c = Some c' ->
  single_flight c' /\ coherent c'.
Proof.
  induction es as [| e es IH]; simpl; intros c c' I C R.
  - injection R as <-. auto.
  - destruct (dispatch P e c) as [c1 |] eqn:D; [| discriminate].
    eapply IH; [| | exact R].
    + eapply single_flight_step; eauto.
    + eapply coherent_step; eauto.
Qed.

Lemma coherent_initial : coherent initial.
Proof. unfold coherent. simpl. auto. Qed.

(** Whatever has happened since the page was loaded: while a call is
    pending there is neither data nor error; in [ERROR] there is the message
    of [failure_message], no data, and a cause in the console; in [SUCCESS]
    there is no error; and in [IDLE] nothing has been logged.  No event
    leads back to [IDLE]. *)
Theorem state_is_coherent (es : list (event P)) (c : Config) :
  run P es initial = Some c ->
  coherent c
  /\ forall e c', dispatch P e c = Some c' ->
                  status (state c') = IDLE -> status (state c) = IDLE.
Proof.
  intros R.
  destruct (reachable_invariant es single_flight_initial coherent_initial R)
    as [_ C].
  split; [exact C |].
  intros e c' D S. destruct e as [v | | i w]; simpl in D.
  - injection D as <-. exact S.
  - destruct (button_disabled (state c)); [discriminate |].
    injection D as <-. unfold handleSubmit in S.
    destruct (trim (url (state c))); simpl in S; [exact S | discriminate].
  - destruct (nth_error (pending c) i); [| discriminate].
    injection D as <-. destruct (analyze P w j); discriminate.
Qed.

(** What is analysed is the text as it was when the form was submitted:
    typing while the call is pending changes the field and nothing else,
    and the call settles for the submitted text. *)
Theorem typing_while_pending (c : Config) (vs : list jsstring) (w : world P) :
  status (state c) <> LOADING -> pending c = [] ->
  trim (url (state c)) <> [] ->
  exists c',
    run P (Submit P :: map (Change P) vs ++ [Settle P 0 w]) c = Some c'
    /\ url (state c') = last vs (url (state c))
    /\ pending c' = []
    /\ match analyze P w (url (state c)) with
       | Fulfilled result =>
           status (state c') = SUCCESS /\ data (state c') = result
       | Rejected err =>
           status (state c') = ERROR
           /\ error (state c') = Some failure_message
       end.
Proof.
  intros NL E T.
  assert (D : dispatch P (Submit P) c = Some (handleSubmit c)).
  { simpl. unfold button_disabled.
    destruct (status_eqb (status (state c)) LOADING) eqn:B; [| reflexivity].
    apply status_eqb_eq in B. congruence. }
  cbn [run]. rewrite D.
  assert (H : forall c1,
             pending c1 = [url (state c)] ->
             exists c',
               run P (map (Change P) vs ++ [Settle P 0 w]) c1 = Some c'
               /\ url (state c') = last vs (url (state c1))
               /\ pending c' = []
               /\ match analyze P w (url (state c)) with
                  | Fulfilled result =>
                      status (state c') = SUCCESS /\ data (state c') = result
                  | Rejected err =>
                      status (state c') = ERROR
                      /\ error (state c') = Some failure_message
                  end).
  { induction vs as [| v vs IH]; intros c1 E1.
    - simpl. rewrite E1. simpl. eexists. split; [reflexivity |].
      destruct (analyze P w (url (state c))); simpl; auto.
    - simpl map. simpl app. cbn [run dispatch].
      destruct (IH {| state := setUrl v (state c1); pending := pending c1;
                      console := console c1 |} E1)
        as (c' & R & U & Pd & A).
      exists c'. split; [exact R |]. split; [| auto].
      rewrite U. simpl url. symmetry. apply last_cons. }
  destruct (H (handleSubmit c)) as (c' & R & U & Pd & A).
  - unfold handleSubmit. destruct (trim (url (state c))); [congruence |].
    simpl. rewrite E. reflexivity.
  - exists c'. split; [exact R |]. split; [| auto].
    rewrite U. unfold handleSubmit.
    destruct (trim (url (state c))); [congruence | reflexivity].
Qed.

End AnyProvider.

Lemma state_is_coherent_witness : coherent (loading (js "abc")).
Proof.
  exact (proj1 (@state_is_coherent (ApiService.provider None)
                  [Change _ (js "abc"); Submit _] (loading (js "abc"))
                  eq_refl)).
Defined.

Lemma typing_while_pending_witness :
  exists c',
    run (ApiService.provider None)
      (Submit _ :: map (Change _) [js "x"; js "xy"]
       ++ [Settle (ApiService.provider None) 0 (fun _ => NetworkFailure)])
      {| state := setUrl (js "abc") initial_state; pending := [];
         console := [] |} = Some c'
    /\ url (state c') = js "xy"
    /\ pending c' = []
    /\ status (state c') = ERROR
    /\ error (state c') = Some failure_message.
Proof.
  destruct (@typing_while_pending (ApiService.provider None)
              {| state := setUrl (js "abc") initial_state; pending := [];
                 console := [] |}
              [js "x"; js "xy"] (fun _ => NetworkFailure))
    as (c' & R & U & Pd & A).
  - discriminate.
  - reflexivity.
  - vm_compute. discriminate.
  - exists c'. simpl in A. tauto.
Defined.

(** What [analyzeVideoSentiment] of apiService pastes behind [/analyse/] is
    never empty and has no white space at its ends: the argument of every
    pending call is normalised by [extractVideoId] to a text that is not
    empty and is its own trimmed form.  The text is pasted as it is, not
    encoded, so this is about the text handed to [fetch] and not about the
    path a server reads from it: a [#] or a blank inside the text is left to
    the parsing of the URL. *)
Theorem request_identifier_not_empty
    (P : AnalysisProvider) (es : list (event P)) (c : Config)
    (arg : jsstring) :
  run P es initial = Some c -> In arg (pending c) ->
  extractVideoId arg <> []
  /\ trim (extractVideoId arg) = extractVideoId arg.
Proof.
  intros R I.
  destruct (reachable_invariant es single_flight_initial coherent_initial R)
    as [[[_ (a & E & T)] | [_ E]] _]; rewrite E in I; simpl in I;
    [| contradiction].
  destruct I as [<- | []].
  destruct (js_match a api_pattern) as [mt |] eqn:M.
  - destruct (Normalisation.extractVideoId_shape a)
      as (u & p & id & v & _ & _ & L & F & ->); [congruence |].
    split; [intros -> ; discriminate | apply trim_identifier, F].
  - unfold extractVideoId. rewrite M. split; [exact T | apply trim_idem].
Qed.

Lemma request_identifier_not_empty_witness :
  extractVideoId (js " abc ") <> []
  /\ trim (extractVideoId (js " abc ")) = extractVideoId (js " abc ").
Proof.
  apply (@request_identifier_not_empty (ApiService.provider None)
           [Change _ (js " abc "); Submit _] (loading (js " abc "))
           (js " abc ") eq_refl).
  left. reflexivity.
Defined.

End Lifecycle.

(* ------------------------------------------------------------------ *)
(** ** components/Gauge.tsx, components/MetricsGrid.tsx and the JSX of
       App.tsx: what is put on the page *)

Module View.

(** Rendering either yields something or throws: a [TypeError] of the
    member access or of the call of [toFixed], or React refusing an object
    as a child.  The page is shown only if nothing throws. *)
Inductive rendered (A : Type) : Type :=
| Shown (a : A)
| Thrown.
Arguments Shown {A} a.
Arguments Thrown {A}.

Definition bind {A B} (x : rendered A) (f : A -> rendered B) : rendered B :=
  match x with
  | Shown a => f a
  | Thrown => Thrown
  end.

(** A JavaScript value as the JSX meets it: [None] is [undefined]. *)
Definition jsval := option value.

(** [base.k], for the property names of the sources (none of them is a
    property of a string, an array, a number or a boolean). *)
Definition member (base : jsval) (k : string) : rendered jsval :=
  match base with
  | None | Some JNull => Thrown
  | Some v => Shown (get k v)
  end.

(** [x.toFixed(digits)]: the digits are those of a floating-point number and
    are left unprinted. *)
Record fixed : Type := { digits : nat; number : Q }.

Definition toFixed (x : jsval) (d : nat) : rendered fixed :=
  match x with
  | Some (JNum q) => Shown {| digits := d; number := q |}
  | _ => Thrown
  end.

(** What React accepts between tags: anything but a plain object, also
    inside an array. *)
Fixpoint valid_child (v : value) : bool :=
  match v with
  | JObj _ => false
  | JArr items =>
      (fix all (l : list value) : bool :=
         match l with
         | [] => true
         | x :: l' => valid_child x && all l'
         end) items
  | JNull | JBool _ | JNum _ | JStr _ => true
  end.

(** [{x}] *)
Definition child (x : jsval) : rendered jsval :=
  match x with
  | Some v => if valid_child v then Shown x else Thrown
  | None => Shown x
  end.

(** ToBoolean *)
Definition truthy_value (v : value) : bool :=
  match v with
  | JNull => false
  | JBool b => b
  | JNum q => negb (Qeq_bool q 0)
  | JStr s => truthy s
  | JArr _ | JObj _ => true
  end.

(** Gauge.tsx.  The arc is floating-point arithmetic on [value] and cannot
    throw; the two texts are [value.toFixed(1)] and [label]. *)
Record GaugeView : Type := {
  gauge_text : fixed;
  gauge_label : jsval
}.

Definition Gauge (value_ label : jsval) : rendered GaugeView :=
  bind (toFixed value_ 1) (fun t =>
  bind (child label) (fun l =>
  Shown {| gauge_text := t; gauge_label := l |})).

(** MetricsGrid.tsx: one card per item, keyed by the label. *)
Record MetricCard : Type := {
  card_key : string;
  card_label : string;
  card_text : fixed;          (* item.value.toFixed(3) *)
  card_color : string
}.

Definition card (label : string) (v : jsval) (color : string)
  : rendered MetricCard :=
  bind (toFixed v 3) (fun t =>
  Shown {| card_key := label; card_label := label; card_text := t;
           card_color := color |}).

Definition MetricsGrid (components : jsval) : rendered (list MetricCard) :=
  bind (member components "transcript_mean") (fun transcript_mean =>
  bind (member components "comments_mean") (fun comments_mean =>
  bind (member components "engagement") (fun engagement =>
  bind (card "Transcript Mean" transcript_mean "bg-emerald-500") (fun c1 =>
  bind (card "Comments Mean" comments_mean "bg-indigo-500") (fun c2 =>
  bind (card "Engagement Rate" engagement "bg-amber-500") (fun c3 =>
  Shown [c1; c2; c3])))))).

(** The [<pre>] of App.tsx: the interpolations of its template. *)
Record Preview : Type := {
  pre_video_id : jsval;
  pre_score : fixed;
  pre_label : jsval;
  pre_transcript_mean : fixed;
  pre_comments_mean : fixed;
  pre_engagement : fixed;
  pre_model_accuracy : fixed
}.

(** The results section of App.tsx. *)
Record Results : Type := {
  res_gauge : GaugeView;
  res_accuracy : fixed;       (* data.model_accuracy.toFixed(2) *)
  res_id : jsval;             (* ID: {data.video_id} *)
  res_metrics : list MetricCard;
  res_preview : Preview
}.

Definition results (data : value) : rendered Results :=
  let d := Some data in
  bind (member d "score") (fun score =>
  bind (member d "label") (fun label =>
  bind (member d "model_accuracy") (fun model_accuracy =>
  bind (toFixed model_accuracy 2) (fun accuracy =>
  bind (member d "video_id") (fun video_id =>
  bind (child video_id) (fun id =>
  bind (member d "components") (fun components =>
  bind (toFixed score 1) (fun p_score =>
  bind (member components "transcript_mean") (fun tm =>
  bind (toFixed tm 3) (fun p_tm =>
  bind (member components "comments_mean") (fun cm =>
  bind (toFixed cm 3) (fun p_cm =>
  bind (member components "engagement") (fun en =>
  bind (toFixed en 3) (fun p_en =>
  bind (Gauge score label) (fun g =>
  bind (MetricsGrid components) (fun cards =>
  Shown {| res_gauge := g;
           res_accuracy := accuracy;
           res_id := id;
           res_metrics := cards;
           res_preview :=
             {| pre_video_id := video_id;
                pre_score := p_score;
                pre_label := label;
                pre_transcript_mean := p_tm;
                pre_comments_mean := p_cm;
                pre_engagement := p_en;
                pre_model_accuracy := accuracy |} |})))))))))))))))).

(** The value of [a && b && <element>] as a child: [false], a falsy
    operand, or the element. *)
Inductive guarded (A : Type) : Type :=
| Off
| Falsy (v : value)
| Element (a : A).
Arguments Off {A}.
Arguments Falsy {A} v.
Arguments Element {A} a.

(** Whether a child puts anything on the page: [false], [null] and the
    empty string do not, the number 0 does. *)
Definition visible {A} (g : guarded A) : bool :=
  match g with
  | Off => false
  | Falsy (JNum _) => true
  | Falsy _ => false
  | Element _ => true
  end.

(** What App.tsx returns, as far as it depends on the state. *)
Record Page : Type := {
  input_value : jsstring;
  submit_disabled : bool;
  submit_text : string;
  error_section : guarded (option string);
  results_section : guarded Results;
  empty_section : guarded unit
}.

Definition App (s : State) : rendered Page :=
  let loading := status_eqb (status s) LOADING in
  bind (if status_eqb (status s) SUCCESS
        then if truthy_value (data s)
             then bind (results (data s)) (fun r => Shown (Element r))
             else Shown (Falsy (data s))
        else Shown Off) (fun res =>
  Shown {| input_value := url s;
           submit_disabled := loading;
           submit_text := if loading then "Inferring..." else "Analyze";
           error_section :=
             if status_eqb (status s) ERROR then Element (error s) else Off;
           results_section := res;
           empty_section :=
             if status_eqb (status s) IDLE then Element tt else Off |}).

Lemma is_number_inv x : is_number x = true -> exists q, x = Some (JNum q).
Proof. destruct x as [[] |]; simpl; try discriminate. eauto. Qed.

Lemma is_string_inv x : is_string x = true -> exists t, x = Some (JStr t).
Proof. destruct x as [[] |]; simpl; try discriminate. eauto. Qed.

Lemma toFixed_not_number x d : is_number x = false -> toFixed x d = Thrown.
Proof. destruct x as [[] |]; simpl; try discriminate; reflexivity. Qed.

Lemma components_inv x :
  is_SentimentComponents x = true ->
  exists o a b c,
    x = Some (JObj o)
    /\ lookup "transcript_mean" o = Some (JNum a)
    /\ lookup "comments_mean" o = Some (JNum b)
    /\ lookup "engagement" o = Some (JNum c).
Proof.
  destruct x as [[] |]; simpl; try discriminate. intros H.
  apply andb_true_iff in H. destruct H as [H H3].
  apply andb_true_iff in H. destruct H as [H1 H2].
  destruct (is_number_inv _ H1) as (a & Ea).
  destruct (is_number_inv _ H2) as (b & Eb).
  destruct (is_number_inv _ H3) as (c & Ec).
  exists fields, a, b, c. auto.
Qed.

Lemma grid_thrown components :
  is_SentimentComponents components = false -> MetricsGrid components = Thrown.
Proof.
  intros F. destruct components as [[] |]; try reflexivity.
  unfold MetricsGrid, member, card. simpl. simpl in F.
  destruct (lookup "transcript_mean" fields) as [[] |]; try reflexivity.
  destruct (lookup "comments_mean" fields) as [[] |]; try reflexivity.
  destruct (lookup "engagement" fields) as [[] |]; try reflexivity.
  discriminate.
Qed.

(** MetricsGrid.tsx renders exactly when its [components] prop fits the
    interface it is declared with; it then shows the three cards, in the
    order transcript, comments, engagement, under distinct keys.  Any other
    value makes it throw. *)
Theorem metrics_grid_renders (components : jsval) :
  match MetricsGrid components with
  | Shown cards =>
      exists o a b c,
        components = Some (JObj o)
        /\ lookup "transcript_mean" o = Some (JNum a)
        /\ lookup "comments_mean" o = Some (JNum b)
        /\ lookup "engagement" o = Some (JNum c)
        /\ map card_label cards
           = ["Transcript Mean"; "Comments Mean"; "Engagement Rate"]%string
        /\ map (fun x => number (card_text x)) cards = [a; b; c]
        /\ NoDup (map card_key cards)
        /\ is_SentimentComponents components = true
  | Thrown => is_SentimentComponents components = false
  end.
Proof.
  destruct (is_SentimentComponents components) eqn:F.
  - destruct (components_inv _ F) as (o & a & b & c & -> & Ea & Eb & Ec).
    unfold MetricsGrid, member, card. simpl. rewrite Ea, Eb, Ec. simpl.
    exists o, a, b, c. repeat split; auto.
    repeat constructor; simpl; intuition discriminate.
  - rewrite (grid_thrown _ F). reflexivity.
Qed.

Lemma results_of_object o :
  results (JObj o) =
  bind (toFixed (lookup "model_accuracy" o) 2) (fun accuracy =>
  bind (child (lookup "video_id" o)) (fun id =>
  bind (toFixed (lookup "score" o) 1) (fun p_score =>
  bind (member (lookup "components" o) "transcript_mean") (fun tm =>
  bind (toFixed tm 3) (fun p_tm =>
  bind (member (lookup "components" o) "comments_mean") (fun cm =>
  bind (toFixed cm 3) (fun p_cm =>
  bind (member (lookup "components" o) "engagement") (fun en =>
  bind (toFixed en 3) (fun p_en =>
  bind (Gauge (lookup "score" o) (lookup "label" o)) (fun g =>
  bind (MetricsGrid (lookup "components" o)) (fun cards =>
  Shown {| res_gauge := g;
           res_accuracy := accuracy;
           res_id := id;
           res_metrics := cards;
           res_preview :=
             {| pre_video_id := lookup "video_id" o;
                pre_score := p_score;
                pre_label := lookup "label" o;
                pre_transcript_mean := p_tm;
                pre_comments_mean := p_cm;
                pre_engagement := p_en;
                pre_model_accuracy := accuracy |} |}))))))))))).
Proof. reflexivity. Qed.

Lemma results_of_other data :
  match data with JObj _ => False | _ => True end -> results data = Thrown.
Proof. destruct data; simpl; intros H; try reflexivity; contradiction. Qed.

Lemma results_when_fit data :
  is_SentimentData data = true ->
  exists r, results data = Shown r
            /\ gauge_label (res_gauge r) = get "label" data
            /\ res_id r = get "video_id" data.
Proof.
  unfold is_SentimentData. intros H.
  apply andb_true_iff in H. destruct H as [H Hm].
  apply andb_true_iff in H. destruct H as [H Hc].
  apply andb_true_iff in H. destruct H as [H Hl].
  apply andb_true_iff in H. destruct H as [Hv Hs].
  destruct data; try discriminate. simpl in *.
  destruct (is_number_inv _ Hm) as (qm & Em).
  destruct (is_number_inv _ Hs) as (qs & Es).
  destruct (is_string_inv _ Hl) as (tl & El).
  destruct (is_string_inv _ Hv) as (tv & Ev).
  destruct (components_inv _ Hc) as (o & a & b & c & Ec & Ea & Eb & Ee).
  rewrite results_of_object, Em, Es, El, Ev, Ec.
  unfold MetricsGrid, Gauge, member, card. simpl.
  rewrite Ea, Eb, Ee. simpl. eexists. split; [reflexivity |]. auto.
Qed.

Lemma results_only_if data r :
  results data = Shown r ->
  is_number (get "score" data) = true
  /\ is_number (get "model_accuracy" data) = true
  /\ is_SentimentComponents (get "components" data) = true.
Proof.
  intros H. destruct data;
    try (rewrite results_of_other in H by exact I; discriminate).
  rewrite results_of_object in H. simpl.
  destruct (is_number (lookup "model_accuracy" fields)) eqn:Nm;
    [| rewrite (toFixed_not_number _ 2 Nm) in H; discriminate].
  destruct (toFixed (lookup "model_accuracy" fields) 2); [| discriminate].
  simpl in H.
  destruct (child (lookup "video_id" fields)); [| discriminate].
  simpl in H.
  destruct (is_number (lookup "score" fields)) eqn:Ns;
    [| rewrite (toFixed_not_number _ 1 Ns) in H; discriminate].
  destruct (toFixed (lookup "score" fields) 1); [| discriminate].
  simpl in H.
  repeat split.
  destruct (is_SentimentComponents (lookup "components" fields)) eqn:F;
    [reflexivity |].
  exfalso. rewrite (grid_thrown _ F) in H.
  repeat match type of H with
         | bind ?x _ = Shown _ =>
             destruct x; simpl in H; [| discriminate]
         end.
  discriminate.
Qed.

(** The results section renders whenever the data fits [SentimentData],
    and then shows the label and the [video_id] of the data; if it renders
    at all, [score] and [model_accuracy] are numbers and [components] fits
    its interface.  Data short of that makes the section throw. *)
Theorem results_render (data : value) :
  (is_SentimentData data = true ->
   exists r, results data = Shown r
             /\ gauge_label (res_gauge r) = get "label" data
             /\ res_id r = get "video_id" data)
  /\
  (forall r, results data = Shown r ->
             is_number (get "score" data) = true
             /\ is_number (get "model_accuracy" data) = true
             /\ is_SentimentComponents (get "components" data) = true).
Proof.
  split.
  - apply results_when_fit.
  - intros r. apply results_only_if.
Qed.

Lemma results_render_witness :
  exists r,
    results (Controller.body_with_video_id (js "Ks-_Mh1QhMc")) = Shown r
    /\ gauge_label (res_gauge r)
       = get "label" (Controller.body_with_video_id (js "Ks-_Mh1QhMc"))
    /\ res_id r
       = get "video_id" (Controller.body_with_video_id (js "Ks-_Mh1QhMc")).
Proof.
  exact (proj1 (results_render
                  (Controller.body_with_video_id (js "Ks-_Mh1QhMc")))
           eq_refl).
Defined.

End View.

(* ------------------------------------------------------------------ *)
(** ** The page along the life of the component *)

Module Pages.

Import ApiService Controller Lifecycle View.

Definition count {A} (g : guarded A) : nat := if visible g then 1 else 0.

Lemma submit_and_settle_unfold (P : AnalysisProvider) input (w : world P) :
  trim input <> [] ->
  submit_and_settle P input w
  = Some (resume (analyze P w input)
            {| state := state (loading input); pending := [];
               console := [] |}).
Proof.
  intros T. unfold submit_and_settle. cbn [run dispatch].
  unfold button_disabled, handleSubmit. simpl.
  destruct (trim input); [congruence | reflexivity].
Qed.

(** What is on the page in every state the component can reach.  The submit
    button is disabled exactly while a call is pending; of the error, the
    results and the empty section at most one shows, and none while loading;
    the error section, when there, carries the text of [failure_message].
    Rendering can throw only in [SUCCESS], on data that is truthy and that
    the results section cannot show. *)
Theorem page_follows_state
    (P : AnalysisProvider) (es : list (event P)) (c : Config) :
  run P es initial = Some c ->
  match App (state c) with
  | Shown page =>
      (submit_disabled page = true <-> pending c <> [])
      /\ (count (error_section page) + count (results_section page)
          + count (empty_section page) <= 1)%nat
      /\ (status (state c) = LOADING ->
          error_section page = Off /\ results_section page = Off
          /\ empty_section page = Off)
      /\ (status (state c) = ERROR ->
          error_section page = Element (Some failure_message))
      /\ (status (state c) = IDLE -> empty_section page = Element tt)
  | Thrown =>
      status (state c) = SUCCESS
      /\ truthy_value (data (state c)) = true
      /\ results (data (state c)) = Thrown
  end.
Proof.
  intros R.
  destruct (reachable_invariant es single_flight_initial coherent_initial R)
    as [I C].
  unfold coherent in C. unfold App.
  destruct (status (state c)) eqn:S; simpl.
  - destruct I as [[L _] | [_ E]]; [congruence |]. rewrite E.
    repeat split; try discriminate; try congruence; auto.
  - destruct I as [[_ (arg & E & _)] | [NL _]]; [| congruence]. rewrite E.
    repeat split; try discriminate; auto.
  - destruct I as [[L _] | [_ E]]; [congruence |]. rewrite E.
    destruct (truthy_value (data (state c))) eqn:T.
    + destruct (results (data (state c))) eqn:Rs; simpl.
      * repeat split; try discriminate; try congruence; auto.
      * auto.
    + simpl. repeat split; try discriminate; try congruence.
      unfold count. simpl. destruct (data (state c)); simpl; lia.
  - destruct I as [[L _] | [_ E]]; [congruence |]. rewrite E.
    destruct C as (_ & Ce & _). rewrite Ce.
    repeat split; try discriminate; try congruence; auto.
Qed.

Lemma page_follows_state_witness :
  match App (state (loading (js "abc"))) with
  | Shown page =>
      (submit_disabled page = true <-> pending (loading (js "abc")) <> [])
      /\ (count (error_section page) + count (results_section page)
          + count (empty_section page) <= 1)%nat
      /\ (status (state (loading (js "abc"))) = LOADING ->
          error_section page = Off /\ results_section page = Off
          /\ empty_section page = Off)
      /\ (status (state (loading (js "abc"))) = ERROR ->
          error_section page = Element (Some failure_message))
      /\ (status (state (loading (js "abc"))) = IDLE ->
          empty_section page = Element tt)
  | Thrown =>
      status (state (loading (js "abc"))) = SUCCESS
      /\ truthy_value (data (state (loading (js "abc")))) = true
      /\ results (data (state (loading (js "abc")))) = Thrown
  end.
Proof.
  exact (@page_follows_state (ApiService.provider None)
           [Change _ (js "abc"); Submit _] (loading (js "abc")) eq_refl).
Defined.

(** apiService hands the body of a 2xx response to the page unchecked.  The
    status is [SUCCESS] whatever the body; the page shows the results
    section if the body fits [SentimentData]; it throws while rendering if
    the body is truthy but [score], [model_accuracy] or [components] is not
    what the section reads; and for a falsy body ([null], [false], [0], the
    empty string) there is no results section at all. *)
Theorem unchecked_body_on_page
    (env : option jsstring) (input : jsstring) (st : N) (body : value) :
  trim input <> [] -> ok st = true ->
  exists c,
    submit_and_settle (ApiService.provider env) input
      (fun _ => Responded st (Some body)) = Some c
    /\ status (state c) = SUCCESS
    /\ data (state c) = body
    /\ (is_SentimentData body = true ->
        exists page r, App (state c) = Shown page
                       /\ results_section page = Element r)
    /\ (truthy_value body = true ->
        is_number (get "score" body)
        && is_number (get "model_accuracy" body)
        && is_SentimentComponents (get "components" body) = false ->
        App (state c) = Thrown)
    /\ (truthy_value body = false ->
        exists page, App (state c) = Shown page
                     /\ results_section page = Falsy body).
Proof.
  intros T O.
  rewrite (submit_and_settle_unfold (ApiService.provider env) input _ T).
  eexists. split; [reflexivity |].
  assert (A : analyze (ApiService.provider env)
                (fun _ => Responded st (Some body)) input = Fulfilled body).
  { simpl. unfold ApiService.analyzeVideoSentiment. rewrite O. reflexivity. }
  rewrite A. simpl. split; [reflexivity |]. split; [reflexivity |].
  unfold App. simpl. split; [| split].
  - intros F. destruct (results_when_fit body F) as (r & Rr & _).
    assert (Tr : truthy_value body = true).
    { destruct body; try discriminate. reflexivity. }
    rewrite Tr, Rr. simpl. eexists. eexists. split; reflexivity.
  - intros Tr F. rewrite Tr.
    destruct (results body) as [r |] eqn:Rr; [| reflexivity].
    destruct (results_only_if body Rr) as (N1 & N2 & N3).
    rewrite N1, N2, N3 in F. discriminate.
  - intros Tr. rewrite Tr. simpl. eexists. split; reflexivity.
Qed.

Lemma unchecked_body_on_page_witness :
  exists c,
    submit_and_settle (ApiService.provider None) (js "abc")
      (fun _ => Responded 200 (Some (JObj []))) = Some c
    /\ status (state c) = SUCCESS
    /\ data (state c) = JObj []
    /\ (is_SentimentData (JObj []) = true ->
        exists page r, App (state c) = Shown page
                       /\ results_section page = Element r)
    /\ (truthy_value (JObj []) = true ->
        is_number (get "score" (JObj []))
        && is_number (get "model_accuracy" (JObj []))
        && is_SentimentComponents (get "components" (JObj [])) = false ->
        App (state c) = Thrown)
    /\ (truthy_value (JObj []) = false ->
        exists page, App (state c) = Shown page
                     /\ results_section page = Falsy (JObj [])).
Proof.
  apply (@unchecked_body_on_page None (js "abc") 200 (JObj [])).
  - vm_compute. discriminate.
  - reflexivity.
Defined.

End Pages.

(* ------------------------------------------------------------------ *)
(** ** Submitting again, as long as the page is shown *)

Module OnScreen.

Import ApiService Controller Lifecycle View.

Section AnyProvider.
Variable P : AnalysisProvider.

(** A render of [App] that throws is caught nowhere in the sources: React
    then takes the component off the page, and with it the form and the
    text field.  [on_screen_run] is [run] with that: an event happens only
    to a component whose page is shown. *)
Fixpoint on_screen_run (es : list (event P)) (c : Config) : option Config :=
  match es with
  | [] => Some c
  | e :: es' =>
      match App (state c) with
      | Thrown => None
      | Shown _ =>
          match dispatch P e c with
          | Some c' => on_screen_run es' c'
          | None => None
          end
      end
  end.

Lemma on_screen_run_run es : forall c c',
  on_screen_run es c = Some c' -> run P es c = Some c'.
Proof.
  induction es as [| e es IH]; simpl; intros c c' R; [exact R |].
  destruct (App (state c)); [| discriminate].
  destruct (dispatch P e c); [apply IH, R | discriminate].
Qed.

Lemma App_shown s :
  status s <> SUCCESS ->
  exists page, App s = Shown page
               /\ submit_disabled page = status_eqb (status s) LOADING.
Proof.
  intros N. unfold App.
  destruct (status_eqb (status s) SUCCESS) eqn:B.
  { apply status_eqb_eq in B. congruence. }
  simpl. eexists. split; reflexivity.
Qed.

Lemma App_submit_disabled s page :
  App s = Shown page -> submit_disabled page = status_eqb (status s) LOADING.
Proof.
  unfold App. intros H.
  destruct (if status_eqb (status s) SUCCESS
            then if truthy_value (data s)
                 then bind (results (data s)) (fun r => Shown (Element r))
                 else Shown (Falsy (data s))
            else Shown Off) as [res |]; simpl in H; [| discriminate].
  injection H as <-. reflexivity.
Qed.

(** As long as the page is shown the form can be used again.  Take a run
    in which no render has thrown.  Outside [SUCCESS] the page is shown, so
    it is after every failure.  Where the page is shown and no call is
    pending, the submit button is enabled and a text that is not blank can
    be submitted: the status becomes [LOADING], data and error are cleared,
    one call is pending, for that text as typed, and the page then shown
    has the button disabled.  Where a call is pending the button is
    disabled, the form cannot be submitted, and the call can settle,
    whatever the answer: that ends in [SUCCESS] or [ERROR] with nothing
    pending.  Nothing is said of a state whose render throws. *)
Theorem resubmittable_on_screen (es : list (event P)) (c : Config) :
  on_screen_run es initial = Some c ->
  (status (state c) <> SUCCESS -> exists page, App (state c) = Shown page)
  /\
  forall page, App (state c) = Shown page ->
    (pending c = [] -> trim (url (state c)) <> [] ->
     submit_disabled page = false
     /\ exists c' page',
          on_screen_run [Submit P] c = Some c'
          /\ status (state c') = LOADING
          /\ data (state c') = JNull /\ error (state c') = None
          /\ pending c' = [url (state c)]
          /\ App (state c') = Shown page'
          /\ submit_disabled page' = true)
    /\
    (pending c <> [] ->
     submit_disabled page = true
     /\ on_screen_run [Submit P] c = None
     /\ forall w, exists c',
          on_screen_run [Settle P 0 w] c = Some c'
          /\ pending c' = []
          /\ (status (state c') = SUCCESS \/ status (state c') = ERROR)).
Proof.
  intros R. apply on_screen_run_run in R.
  destruct (reachable_invariant es single_flight_initial coherent_initial R)
    as [I _].
  split.
  - intros N. destruct (App_shown (state c) N) as (page & E & _). eauto.
  - intros page A. pose proof (App_submit_disabled _ A) as B.
    cbn [on_screen_run]. rewrite A. split.
    + intros E T. destruct I as [[L (arg & Ea & _)] | [NL _]]; [congruence |].
      assert (B' : status_eqb (status (state c)) LOADING = false).
      { destruct (status_eqb (status (state c)) LOADING) eqn:X; [| reflexivity].
        apply status_eqb_eq in X. congruence. }
      split; [congruence |].
      simpl. unfold button_disabled. rewrite B'.
      unfold handleSubmit.
      destruct (trim (url (state c))) eqn:Tr; [congruence |]. simpl.
      eexists. eexists. split; [reflexivity |]. simpl. rewrite E.
      repeat split; reflexivity.
    + intros NE. destruct I as [[L (arg & Ea & _)] | [_ E]]; [| congruence].
      assert (B' : status_eqb (status (state c)) LOADING = true)
        by (apply status_eqb_eq, L).
      split; [congruence |]. split.
      * simpl. unfold button_disabled. rewrite B'. reflexivity.
      * intros w. simpl. rewrite Ea. simpl. eexists. split; [reflexivity |].
        destruct (analyze P w arg); simpl; auto.
Qed.

End AnyProvider.

Arguments on_screen_run P es c : clear implicits.

Lemma resubmittable_on_screen_witness :
  (status (state (loading (js "abc"))) <> SUCCESS ->
   exists page, App (state (loading (js "abc"))) = Shown page)
  /\
  forall page, App (state (loading (js "abc"))) = Shown page ->
    (pending (loading (js "abc")) = [] ->
     trim (url (state (loading (js "abc")))) <> [] ->
     submit_disabled page = false
     /\ exists c' page',
          on_screen_run (ApiService.provider None) [Submit _]
            (loading (js "abc")) = Some c'
          /\ status (state c') = LOADING
          /\ data (state c') = JNull /\ error (state c') = None
          /\ pending c' = [url (state (loading (js "abc")))]
          /\ App (state c') = Shown page'
          /\ submit_disabled page' = true)
    /\
    (pending (loading (js "abc")) <> [] ->
     submit_disabled page = true
     /\ on_screen_run (ApiService.provider None) [Submit _]
          (loading (js "abc")) = None
     /\ forall w, exists c',
          on_screen_run (ApiService.provider None)
            [Settle (ApiService.provider None) 0 w] (loading (js "abc"))
          = Some c'
          /\ pending c' = []
          /\ (status (state c') = SUCCESS \/ status (state c') = ERROR)).
Proof.
  exact (@resubmittable_on_screen (ApiService.provider None)
           [Change _ (js "abc"); Submit _] (loading (js "abc")) eq_refl).
Defined.

End OnScreen.

(* ------------------------------------------------------------------ *)
(** ** Results under the Gemini service *)

Module GeminiLifecycle.

Import GeminiService Controller.

(** The data of a result under the Gemini service. *)
Definition identified (c : Config) : Prop :=
  status (state c) = SUCCESS ->
  exists o id,
    data (state c) = JObj o
    /\ lookup "video_id" o = Some (JStr id)
    /\ forallb id_char id = true
    /\ (id = js "unknown" \/ length id = 11%nat).

Lemma identified_step e c c' :
  identified c -> dispatch GeminiService.provider e c = Some c' ->
  identified c'.
Proof.
  intros H D. destruct e as [v | | i w]; simpl in D.
  - injection D as <-. exact H.
  - destruct (button_disabled (state c)); [discriminate |].
    injection D as <-. unfold handleSubmit.
    destruct (trim (url (state c))); [exact H |].
    intros S. discriminate.
  - destruct (nth_error (pending c) i) as [arg |]; [| discriminate].
    injection D as <-. unfold GeminiService.analyzeVideoSentiment.
    destruct (w (contents arg)) as [| [parsed |]]; intros S; try discriminate.
    simpl. exists (assign "video_id" (JStr (videoId arg)) (spread parsed)).
    exists (videoId arg). split; [reflexivity |].
    split; [apply lookup_assign |].
    destruct (js_match arg gemini_pattern) as [mt |] eqn:E.
    + destruct (Normalisation.videoId_shape arg)
        as (u & p & id & v & _ & _ & L & F & ->); [congruence |]. auto.
    + unfold videoId. rewrite E. split; [reflexivity | left; reflexivity].
Qed.

(** Under the Gemini service every result on display is an object whose
    [video_id] is a string of [[a-zA-Z0-9_-]]: the literal [unknown] or 11
    characters. *)
Theorem gemini_result_identified
    (es : list (event GeminiService.provider)) (c : Config) :
  run GeminiService.provider es initial = Some c -> identified c.
Proof.
  assert (H : forall c0, identified c0 ->
                run GeminiService.provider es c0 = Some c -> identified c).
  { induction es as [| e es IH]; simpl; intros c0 I0 R.
    - injection R as <-. exact I0.
    - destruct (dispatch GeminiService.provider e c0) as [c1 |] eqn:D;
        [| discriminate].
      eapply IH; [| exact R]. eapply identified_step; eauto. }
  apply H. intros S. discriminate.
Qed.

Lemma gemini_result_identified_witness : identified Controller.hallucinated.
Proof.
  exact (@gemini_result_identified
           [Change _ (js "https://youtu.be/Ks-_Mh1QhMc"); Submit _;
            Settle GeminiService.provider 0
              (fun _ => Generated
                          (Some (body_with_video_id (js "XYZ123"))))]
           Controller.hallucinated eq_refl).
Defined.

End GeminiLifecycle.
